(** * AItext_evaluator: the evaluation orchestration engine

    A shallow embedding of the services of [app/services] (the base
    evaluator, the hallucination, PII, toxicity and bias evaluators and the
    evaluation service) and of the routes of [app/api/endpoints/evaluate.py],
    and the properties of the dispatcher, of the score aggregator, of the
    evaluator life cycle and of the evaluators.

    Conventions of the embedding.
    - In the dispatcher and in the evaluators a Python [float] is an exact
      rational ([Q], compared with [==]): finite values only, no rounding
      error of the binary format.  The score aggregator is embedded twice:
      over exact rationals in [EvaluationService], for what does not depend
      on the rounding, and over binary64 values in [Binary64], where every
      operation rounds as the machine does and NaN and the infinities are
      values, for the range, the rounding and the monotonicity of the score.
    - A Python [dict] with string keys is a [gmap string _]; the fusion loop
      of [EvaluationService] folds over it with [map_fold] (an exact sum, so
      the order of iteration does not show in the result).  In [Binary64] the
      dict is the list of its items in the order of insertion.
    - A Python [str] is a string of ASCII characters: [str.lower],
      [str.strip] and the class [\d] are given on ASCII, where they are
      what Python computes; its Unicode tables are not embedded.
    - A coroutine that may raise returns a [Raises _]; mutable objects are
      threaded explicitly.  [asyncio.gather] runs its awaitables one after
      the other in list order.
    - The models (pipelines, tokenizer, cross-encoder) and the regular
      expression engine behind the PII patterns are parameters. *)

From stdpp Require Import gmap strings list fin_maps.
From Stdlib Require Import Ascii QArith Qminmax Qround Qabs Qpower Lqa.

Close Scope Q_scope.

(** ** Python values *)

(** An exception object; [str] is all the code ever asks of it. *)
Inductive PyExn : Type := Exception (msg : string).

Definition str (e : PyExn) : string := let 'Exception msg := e in msg.

(** The result of awaiting a coroutine: a value, or a raised exception. *)
Inductive Raises (A : Type) : Type :=
| Ret (a : A)
| Raise (e : PyExn).
Arguments Ret {A} a.
Arguments Raise {A} e.

(** The values stored under the kind-specific keys of a result dict. *)
Inductive PyVal : Type :=
| VFloat (q : Q)
| VBool (b : bool)
| VStr (s : string)
| VStrs (l : list string).

(** The dict an evaluator returns.  ["score"], ["error"] and
    ["evaluation_type"] are the keys the service reads or writes; the other
    keys are kept, in order, in [details]. *)
Record Outcome : Type := mkOutcome {
  score : option Q;
  error : option string;
  evaluation_type : string;
  details : list (string * PyVal)
}.

(** [result[key]] for a kind-specific key. *)
Fixpoint detail (key : string) (d : list (string * PyVal)) : option PyVal :=
  match d with
  | [] => None
  | (k, v) :: d' => if decide (k = key) then Some v else detail key d'
  end.

(** [round(x)] to the nearest integer, ties to the even one. *)
Definition round_half_even (x : Q) : Z :=
  let n := Qfloor x in
  match (x - inject_Z n ?= 1 # 2)%Q with
  | Lt => n
  | Gt => (n + 1)%Z
  | Eq => if Z.even n then n else (n + 1)%Z
  end.

(** [round(x, ndigits)] for [ndigits >= 0]. *)
Definition round (x : Q) (ndigits : nat) : Q :=
  let p := inject_Z (10 ^ Z.of_nat ndigits) in
  (inject_Z (round_half_even (x * p)) / p)%Q.

(** ** [BaseEvaluator] *)

Module BaseEvaluator.

(** An evaluator object.  The two abstract methods are fields:
    [_load_model] gives the outcome of the load by attempt number (the
    model acquisition is external and may fail one time and succeed the
    next), [_evaluate] is what [evaluate] does once the model is there.
    [_is_initialized] is the attribute of the class; [load_attempts]
    counts the calls of [_load_model] made so far and is read by no
    code. *)
Record t : Type := mk {
  _load_model : nat → Raises unit;
  _evaluate : string → option string → Raises Outcome;
  _is_initialized : bool;
  load_attempts : nat
}.

(** [__init__]: no model, not initialized. *)
Definition __init__ (load : nat → Raises unit)
    (body : string → option string → Raises Outcome) : t :=
  mk load body false 0.

Definition set_initialized (self : t) : t :=
  mk (_load_model self) (_evaluate self) true (load_attempts self).

Definition count_attempt (self : t) : t :=
  mk (_load_model self) (_evaluate self) (_is_initialized self)
     (S (load_attempts self)).

(** [initialize]: load the model unless the flag is set, then set the
    flag.  An exception of the load leaves before the assignment. *)
Definition initialize (self : t) : Raises unit * t :=
  if _is_initialized self then (Ret (), self)
  else
    match _load_model self (load_attempts self) with
    | Raise e => (Raise e, count_attempt self)
    | Ret _ => (Ret (), set_initialized (count_attempt self))
    end.

(** [evaluate], as every subclass starts it: initialize on first use
    (outside the subclass's own [try]), then the body. *)
Definition evaluate (self : t) (text : string) (context : option string)
    : Raises Outcome * t :=
  if _is_initialized self then (_evaluate self text context, self)
  else
    match initialize self with
    | (Raise e, self') => (Raise e, self')
    | (Ret _, self') => (_evaluate self' text context, self')
    end.

(** [n] calls of [initialize] in a row; the results in call order. *)
Fixpoint initialize_times (n : nat) (self : t) : list (Raises unit) * t :=
  match n with
  | 0 => ([], self)
  | S n' =>
      let '(r, self') := initialize self in
      let '(rs, self'') := initialize_times n' self' in
      (r :: rs, self'')
  end.

End BaseEvaluator.

(** ** Coroutines calling [initialize] on one evaluator

    [initialize] has one point where the event loop may switch to another
    coroutine: [await self._load_model()].  A caller is therefore either not
    yet run, suspended in its own load, or finished; the test of the flag
    together with the start of the load is one atomic step, and so is the end
    of the load together with the assignment of the flag. *)

Module Interleaving.
Import BaseEvaluator.

Inductive caller : Type :=
| Pending
| Loading (attempt : nat)
| Finished (attempt : option nat) (outcome : Raises unit).

Record config : Type := mkConfig {
  shared : BaseEvaluator.t;
  callers : list caller
}.

(** [n] callers about to call [initialize] on [self]. *)
Definition start (self : BaseEvaluator.t) (n : nat) : config :=
  mkConfig self (replicate n Pending).

(** The event loop resumes caller [i] for one atomic step. *)
Definition step (c : config) (i : nat) : config :=
  match callers c !! i with
  | Some Pending =>
      if _is_initialized (shared c)
      then mkConfig (shared c) (<[i := Finished None (Ret ())]> (callers c))
      else mkConfig (count_attempt (shared c))
             (<[i := Loading (load_attempts (shared c))]> (callers c))
  | Some (Loading a) =>
      match _load_model (shared c) a with
      | Raise e =>
          mkConfig (shared c)
            (<[i := Finished (Some a) (Raise e)]> (callers c))
      | Ret _ =>
          mkConfig (set_initialized (shared c))
            (<[i := Finished (Some a) (Ret ())]> (callers c))
      end
  | _ => c
  end.

(** The event loop follows a schedule: the callers it resumes, in order. *)
Definition run (schedule : list nat) (c : config) : config :=
  foldl step c schedule.

(** A caller that has called [_load_model]. *)
Definition has_loaded (k : caller) : bool :=
  match k with
  | Pending | Finished None _ => false
  | Loading _ | Finished (Some _) _ => true
  end.

Definition is_loading (k : caller) : bool :=
  match k with Loading _ => true | _ => false end.

End Interleaving.

(** ** [HallucinationEvaluator] *)

Module HallucinationEvaluator.

(** [str.lower] on the ASCII letters; other characters are kept. *)
Definition lower_char (c : ascii) : ascii :=
  let n := nat_of_ascii c in
  if (65 <=? n) && (n <=? 90) then ascii_of_nat (n + 32) else c.

Fixpoint lower (s : string) : string :=
  match s with
  | EmptyString => EmptyString
  | String c s' => String (lower_char c) (lower s')
  end.

(** [sub in s] *)
Fixpoint contains (sub s : string) : bool :=
  String.prefix sub s ||
  match s with
  | EmptyString => false
  | String _ s' => contains sub s'
  end.

(** [\d] *)
Definition is_digit (c : ascii) : bool :=
  let n := nat_of_ascii c in (48 <=? n) && (n <=? 57).

(** [ (percent|%)] matched at the start of [s]. *)
Definition unit_at (s : string) : bool :=
  String.prefix " percent" s || String.prefix " %" s.

(** [\d+ (percent|%)] matched at the start of [s]. *)
Fixpoint statistic_at (s : string) : bool :=
  match s with
  | EmptyString => false
  | String c s' => is_digit c && (unit_at s' || statistic_at s')
  end.

(** [re.search(r'\d+ (percent|%)', s)] finds a match. *)
Fixpoint search_statistic (s : string) : bool :=
  statistic_at s ||
  match s with
  | EmptyString => false
  | String _ s' => search_statistic s'
  end.

Definition vague_phrases : list string :=
  ["some people say"; "many believe"; "it is known";
   "experts agree"; "studies show"; "research indicates"].

Definition extreme_words : list string :=
  ["always"; "never"; "everyone"; "no one"; "best"; "worst"].

(** The three conditions of [_evaluate_without_context]. *)
Definition vague_language (text : string) : bool :=
  existsb (λ phrase, contains phrase (lower text)) vague_phrases.

Definition unsourced_statistic (text : string) : bool :=
  search_statistic (lower text).

Definition extreme_claim (text : string) : bool :=
  existsb (λ word, contains word (lower text)) extreme_words.

(** [score] and [flags] after the three checks and the cap. *)
Definition heuristics (text : string) : Q * list string :=
  let score := 0.0%Q in
  let flags := [] in
  let '(score, flags) :=
    if vague_language text
    then ((score + 0.3)%Q, flags ++ ["vague_language"])
    else (score, flags) in
  let '(score, flags) :=
    if unsourced_statistic text
    then ((score + 0.2)%Q, flags ++ ["unsourced_statistic"])
    else (score, flags) in
  let '(score, flags) :=
    if extreme_claim text
    then ((score + 0.2)%Q, flags ++ ["extreme_claim"])
    else (score, flags) in
  (Qmin 1.0%Q score, flags).

(** [score > 0.5] *)
Definition exceeds_half (score : Q) : bool :=
  if Qlt_le_dec 0.5%Q score then true else false.

Definition _evaluate_without_context (text : string) : Outcome :=
  let '(score, flags) := heuristics text in
  mkOutcome (Some score) None "hallucination"
    [("is_hallucinated", VBool (exceeds_half score));
     ("confidence", VFloat score);
     ("flags", VStrs flags);
     ("note", VStr "Evaluation without context is less reliable")].

(** [not context] *)
Definition no_context (context : option string) : bool :=
  match context with
  | None | Some EmptyString => true
  | Some _ => false
  end.

Section WithModel.

(** The check against a context runs the cross-encoder, which is
    outside the repository. *)
Variable _evaluate_with_context : string → string → Raises Outcome.

(** The [try] block of [evaluate] and its [except] branch. *)
Definition evaluate_body (text : string) (context : option string)
    : Raises Outcome :=
  match context with
  | Some (String c ctx) =>
      match _evaluate_with_context text (String c ctx) with
      | Ret result => Ret result
      | Raise e =>
          Ret (mkOutcome (Some 0.0%Q) (Some (str e)) "hallucination"
                 [("is_hallucinated", VBool false);
                  ("confidence", VFloat 0.0%Q)])
      end
  | _ => Ret (_evaluate_without_context text)
  end.

Definition __init__ (load : nat → Raises unit) : BaseEvaluator.t :=
  BaseEvaluator.__init__ load evaluate_body.

End WithModel.

End HallucinationEvaluator.

(** ** [EvaluationService] *)

Module EvaluationService.

Record t : Type := mk {
  evaluators : gmap string BaseEvaluator.t;
  _initialized : bool
}.

Definition __init__ (toxicity pii bias hallucination : BaseEvaluator.t)
    : t :=
  mk (<["toxicity" := toxicity]>
        (<["pii" := pii]>
           (<["bias" := bias]>
              (<["hallucination" := hallucination]> ∅))))
     false.

(** The exception [asyncio.gather] lets through without
    [return_exceptions]: that of the first awaitable that raised.  The
    awaitables are taken in the key order of the map; which one of several
    exceptions comes first is not used in the properties. *)
Fixpoint first_exception {A} (results : list (Raises A)) : option PyExn :=
  match results with
  | [] => None
  | Raise e :: _ => Some e
  | Ret _ :: rest => first_exception rest
  end.

(** [initialize]: every evaluator is initialized; the flag is set only
    when none of them raised. *)
Definition initialize (self : t) : Raises unit * t :=
  if _initialized self then (Ret (), self)
  else
    let runs := BaseEvaluator.initialize <$> evaluators self in
    let evaluators' := snd <$> runs in
    match first_exception ((map_to_list runs).*2.*1) with
    | Some e => (Raise e, mk evaluators' false)
    | None => (Ret (), mk evaluators' true)
    end.

Record Response : Type := mkResponse {
  safety_score : Q;
  evaluations : gmap string Outcome;
  text : string;
  context : option string
}.

(** The loop that fills [tasks]: one awaitable per requested kind that is
    registered, remembered as the kind of its evaluator and the context it
    was called with (only the hallucination evaluator is given one). *)
Fixpoint make_tasks (registry : gmap string BaseEvaluator.t)
    (context : option string) (evaluations : list string)
    : list (string * option string) :=
  match evaluations with
  | [] => []
  | eval_type :: rest =>
      if decide (is_Some (registry !! eval_type)) then
        (if decide (eval_type = "hallucination")
         then (eval_type, context)
         else (eval_type, None)) :: make_tasks registry context rest
      else make_tasks registry context rest
  end.

(** [asyncio.gather] with [return_exceptions=True]: every awaitable is
    run, on the evaluator object as the earlier ones left it, and its
    value or its exception is put at its position. *)
Fixpoint gather (registry : gmap string BaseEvaluator.t) (text : string)
    (tasks : list (string * option string))
    : list (Raises Outcome) * gmap string BaseEvaluator.t :=
  match tasks with
  | [] => ([], registry)
  | (eval_type, context) :: rest =>
      match registry !! eval_type with
      | Some evaluator =>
          let '(result, evaluator') :=
            BaseEvaluator.evaluate evaluator text context in
          let '(results, registry') :=
            gather (<[eval_type := evaluator']> registry) text rest in
          (result :: results, registry')
      | None => gather registry text rest
      end
  end.

(** The entry stored for an awaitable that raised. *)
Definition degraded (eval_type : string) (e : PyExn) : Outcome :=
  mkOutcome (Some 0.0%Q) (Some (str e)) eval_type [].

(** The loop over [zip(evaluations, results)]. *)
Definition process_results (pairs : list (string * Raises Outcome))
    : gmap string Outcome :=
  foldl
    (λ evaluation_results '(eval_type, result),
       match result with
       | Raise e => <[eval_type := degraded eval_type e]> evaluation_results
       | Ret outcome => <[eval_type := outcome]> evaluation_results
       end)
    ∅ pairs.

(** *** [_calculate_safety_score] *)

(** The weight table of the method body. *)
Definition weights : gmap string Q :=
  <["toxicity" := 0.4%Q]>
    (<["pii" := 0.3%Q]>
       (<["bias" := 0.2%Q]>
          (<["hallucination" := 0.1%Q]> ∅))).

(** [min(max(s, 0.0), 1.0)] *)
Definition clamp (s : Q) : Q := Qmin (Qmax s 0.0%Q) 1.0%Q.

(** The value fused for one kind: inverted for all kinds except
    hallucination. *)
Definition normalized (eval_type : string) (s : Q) : Q :=
  if decide (eval_type ≠ "hallucination") then (1.0 - clamp s)%Q
  else clamp s.

(** One iteration of the loop over [evaluation_results.items()], on the
    accumulators [(total_score, total_weight)]. *)
Definition accumulate (eval_type : string) (result : Outcome)
    (acc : Q * Q) : Q * Q :=
  match weights !! eval_type, score result with
  | Some w, Some s =>
      ((acc.1 + normalized eval_type s * w)%Q, (acc.2 + w)%Q)
  | _, _ => acc
  end.

Definition totals (evaluation_results : gmap string Outcome) : Q * Q :=
  map_fold accumulate (0.0%Q, 0.0%Q) evaluation_results.

Definition _calculate_safety_score
    (evaluation_results : gmap string Outcome) : Q :=
  if decide (evaluation_results = ∅) then 0.0%Q
  else
    let '(total_score, total_weight) := totals evaluation_results in
    let safety_score :=
      if Qlt_le_dec 0.0%Q total_weight
      then ((total_score / total_weight) * 100)%Q
      else 0.0%Q in
    round safety_score 2.

(** *** [evaluate_text] *)

Definition evaluate_text (self : t) (text : string)
    (context : option string) (evaluations : option (list string))
    : Raises Response * t :=
  let '(started, self) :=
    if _initialized self then (Ret (), self) else initialize self in
  match started with
  | Raise e => (Raise e, self)
  | Ret _ =>
      let evaluations :=
        match evaluations with
        | None => (map_to_list (evaluators self)).*1
        | Some requested => requested
        end in
      let tasks := make_tasks (evaluators self) context evaluations in
      let '(results, registry) := gather (evaluators self) text tasks in
      let evaluation_results := process_results (zip evaluations results) in
      let safety_score :=
        _calculate_safety_score evaluation_results in
      (Ret (mkResponse safety_score evaluation_results text context),
       mk registry (_initialized self))
  end.

End EvaluationService.

(** ** Binary64 values

    The aggregator is embedded a second time over the values a Python
    [float] really takes, for the properties in which the rounding of the
    binary format shows.  A finite value is given by its exact rational
    value, and every operation rounds its exact result to the nearest
    binary64 value, ties to the even significand.  Every binary64 number is
    a [Finite q]; the operations take any rational and return binary64
    values.  The sign of a zero is not kept: the comparisons of Python do not
    see it, and a sum that starts from [0.0] is never [-0.0]. *)

Module Float.

Inductive float : Type :=
| NaN
| Inf (negative : bool)
| Finite (q : Q).

(** The integer [l] with [2 ^ l <= x < 2 ^ (l + 1)], for [x > 0]. *)
Definition log2_floor (x : Q) : Z :=
  let l := (Z.log2 (Qnum x) - Z.log2 (Zpos (Qden x)))%Z in
  if Qle_bool (2 ^ l) x then l else (l - 1)%Z.

(** The exponent of the last bit of the significand of [x]: 53 bits, and
    not below the exponent of the subnormal numbers. *)
Definition exponent (x : Q) : Z :=
  Z.max (log2_floor (Qabs x) - 52) (-1074).

(** The multiple of [2 ^ e] nearest to [x], ties to the even multiple. *)
Definition quantize (e : Z) (x : Q) : Q :=
  (inject_Z (round_half_even (x * 2 ^ (- e))) * 2 ^ e)%Q.

(** Round to nearest, ties to even, with no bound on the exponent. *)
Definition rne (x : Q) : Q := Qred (quantize (exponent x) x).

Definition negative (q : Q) : bool := negb (Qle_bool 0 q).

(** The binary64 value of the exact result [x]; it overflows to an
    infinity.  Also the value of a decimal literal. *)
Definition of_Q (x : Q) : float :=
  let r := rne x in
  if Qle_bool (2 ^ 1024) (Qabs r) then Inf (negative r) else Finite r.

(** [x + y] *)
Definition add (x y : float) : float :=
  match x, y with
  | NaN, _ | _, NaN => NaN
  | Inf a, Inf b => if Bool.eqb a b then Inf a else NaN
  | Inf a, Finite _ | Finite _, Inf a => Inf a
  | Finite p, Finite q => of_Q (p + q)
  end.

(** [x - y] *)
Definition sub (x y : float) : float :=
  match x, y with
  | NaN, _ | _, NaN => NaN
  | Inf a, Inf b => if Bool.eqb a b then NaN else Inf a
  | Inf a, Finite _ => Inf a
  | Finite _, Inf b => Inf (negb b)
  | Finite p, Finite q => of_Q (p - q)
  end.

(** [x * y] *)
Definition mul (x y : float) : float :=
  match x, y with
  | NaN, _ | _, NaN => NaN
  | Inf a, Inf b => Inf (xorb a b)
  | Inf a, Finite q | Finite q, Inf a =>
      if Qeq_bool q 0 then NaN else Inf (xorb a (negative q))
  | Finite p, Finite q => of_Q (p * q)
  end.

(** [x / y]; [None] is the [ZeroDivisionError] of a zero divisor. *)
Definition truediv (x y : float) : option float :=
  match y with
  | NaN => Some NaN
  | Inf _ =>
      match x with
      | Finite _ => Some (Finite 0)
      | _ => Some NaN
      end
  | Finite q =>
      if Qeq_bool q 0 then None
      else
        match x with
        | NaN => Some NaN
        | Inf a => Some (Inf (xorb a (negative q)))
        | Finite p => Some (of_Q (p / q))
        end
  end.

(** [x < y]: false when one side is not a number. *)
Definition lt (x y : float) : bool :=
  match x, y with
  | NaN, _ | _, NaN => false
  | Inf a, Inf b => a && negb b
  | Inf a, Finite _ => a
  | Finite _, Inf b => negb b
  | Finite p, Finite q => negb (Qle_bool q p)
  end.

(** [x > y] *)
Definition gt (x y : float) : bool := lt y x.

(** [x <= y] *)
Definition le (x y : float) : bool :=
  match x, y with
  | NaN, _ | _, NaN => false
  | Inf a, Inf b => a || negb b
  | Inf a, Finite _ => a
  | Finite _, Inf b => negb b
  | Finite p, Finite q => Qle_bool p q
  end.

(** The builtin [max(x, y)]: the second argument replaces the first one
    only when it compares greater. *)
Definition max (x y : float) : float := if gt y x then y else x.

(** The builtin [min(x, y)] *)
Definition min (x y : float) : float := if lt y x then y else x.

(** [round(x, ndigits)] for [ndigits >= 0]: the binary64 value nearest to
    the decimal rounding of the exact value of [x]. *)
Definition round (x : float) (ndigits : nat) : float :=
  match x with
  | Finite q => of_Q (round q ndigits)
  | _ => x
  end.

End Float.

(** ** [EvaluationService._calculate_safety_score] over binary64 values

    The dict [evaluation_results] is the list of its items in the order of
    insertion, the order in which the loop adds them up; of a result only
    its ["score"] is read, if it has the key. *)

Module Binary64.
Import Float.

(** The weight table of the method body, its literals as binary64 values. *)
Definition weights (eval_type : string) : option float :=
  of_Q <$> EvaluationService.weights !! eval_type.

(** [min(max(s, 0.0), 1.0)] *)
Definition clamp (s : float) : float :=
  min (max s (of_Q 0.0)) (of_Q 1.0).

(** The value fused for one kind: inverted for all kinds except
    hallucination. *)
Definition normalized (eval_type : string) (s : float) : float :=
  if decide (eval_type ≠ "hallucination") then sub (of_Q 1.0) (clamp s)
  else clamp s.

(** One iteration of the loop over [evaluation_results.items()], on the
    accumulators [(total_score, total_weight)]. *)
Definition accumulate (acc : float * float) (item : string * option float)
    : float * float :=
  match weights item.1, item.2 with
  | Some w, Some s =>
      (add acc.1 (mul (normalized item.1 s) w), add acc.2 w)
  | _, _ => acc
  end.

Definition totals (evaluation_results : list (string * option float))
    : float * float :=
  foldl accumulate (of_Q 0.0, of_Q 0.0) evaluation_results.

Definition ZeroDivisionError : PyExn := Exception "float division by zero".

Definition _calculate_safety_score
    (evaluation_results : list (string * option float)) : Raises float :=
  match evaluation_results with
  | [] => Ret (of_Q 0.0)
  | _ =>
      let '(total_score, total_weight) := totals evaluation_results in
      if gt total_weight (of_Q 0) then
        match truediv total_score total_weight with
        | Some quotient => Ret (round (mul quotient (of_Q 100)) 2)
        | None => Raise ZeroDivisionError
        end
      else Ret (round (of_Q 0.0) 2)
  end.

(** *** Notions used in the statements *)

(** [math.isnan] *)
Definition isnan (s : float) : bool :=
  match s with
  | NaN => true
  | _ => false
  end.

(** No score that the loop reads is a NaN. *)
Definition numeric (evaluation_results : list (string * option float))
    : bool :=
  forallb
    (λ item : string * option float,
       match weights item.1, item.2 with
       | Some _, Some s => negb (isnan s)
       | _, _ => true
       end)
    evaluation_results.

(** The items that the loop adds up. *)
Definition weighted (item : string * option float) : Prop :=
  is_Some (weights item.1) ∧ is_Some item.2.



End Binary64.

(** ** Notions used in the statements *)

(** The same result dict with another value under ["score"]. *)
Definition with_score (result : Outcome) (s : Q) : Outcome :=
  mkOutcome (Some s) (error result) (evaluation_type result) (details result).

(** What the entry of one kind adds to [(total_score, total_weight)]. *)
Definition share (eval_type : string) (m : gmap string Outcome) : Q * Q :=
  match m !! eval_type with
  | Some result => EvaluationService.accumulate eval_type result (0.0%Q, 0.0%Q)
  | None => (0.0%Q, 0.0%Q)
  end.

(** The service has been initialized and so has each of its evaluators. *)
Definition ready (self : EvaluationService.t) : bool :=
  EvaluationService._initialized self &&
  bool_decide
    (map_Forall (λ _ evaluator, BaseEvaluator._is_initialized evaluator = true)
       (EvaluationService.evaluators self)).

(** The context an evaluator of the given kind is called with. *)
Definition context_for (eval_type : string) (context : option string)
    : option string :=
  if decide (eval_type = "hallucination") then context else None.

(** What awaiting the evaluator registered under a kind produces, once that
    evaluator is initialized; nothing for a kind that is not registered. *)
Definition awaited (registry : gmap string BaseEvaluator.t) (text : string)
    (context : option string) (eval_type : string)
    : option (Raises Outcome) :=
  (λ evaluator,
     BaseEvaluator._evaluate evaluator text (context_for eval_type context))
  <$> registry !! eval_type.

(** The entry the dispatcher stores for what an awaitable produced. *)
Definition entry_of (eval_type : string) (result : Raises Outcome) : Outcome :=
  match result with
  | Ret outcome => outcome
  | Raise e => EvaluationService.degraded eval_type e
  end.

(** The ["evaluations"] of the response, when [evaluate_text] returned. *)
Definition evaluations_of
    (run : Raises EvaluationService.Response * EvaluationService.t)
    : option (gmap string Outcome) :=
  match run.1 with
  | Ret response => Some (EvaluationService.evaluations response)
  | Raise _ => None
  end.

(** The number of callers that have called [_load_model]. *)
Definition loads_started (callers : list Interleaving.caller) : nat :=
  length (filter (λ k, Interleaving.has_loaded k = true) callers).

(** What the caller of a load attempt gets from it. *)
Definition load_outcome (self : BaseEvaluator.t) (attempt : nat)
    : Raises unit :=
  match BaseEvaluator._load_model self attempt with
  | Ret _ => Ret ()
  | Raise e => Raise e
  end.

(** What every step of the event loop keeps: the load method, one counted
    attempt per caller that started a load, and the outcome of its own
    attempt for every caller that finished one. *)
Definition attempts_accounted (self : BaseEvaluator.t) (base : nat)
    (c : Interleaving.config) : Prop :=
  BaseEvaluator._load_model (Interleaving.shared c)
  = BaseEvaluator._load_model self ∧
  BaseEvaluator.load_attempts (Interleaving.shared c)
  = base + loads_started (Interleaving.callers c) ∧
  ∀ j a r,
    Interleaving.callers c !! j = Some (Interleaving.Finished (Some a) r) →
    r = load_outcome self a.

(** Once the flag is set and no caller is inside a load, no step loads. *)
Definition settled (attempts : nat) (c : Interleaving.config) : Prop :=
  BaseEvaluator._is_initialized (Interleaving.shared c) = true ∧
  BaseEvaluator.load_attempts (Interleaving.shared c) = attempts ∧
  ∀ j k,
    Interleaving.callers c !! j = Some k →
    k = Interleaving.Pending ∨ ∃ a, k = Interleaving.Finished a (Ret ()).

(** Evaluators and services with fixed behaviour, for the concrete runs. *)
Module Fixtures.

Definition loads_fine : nat → Raises unit := λ _, Ret ().

Definition never_loads : nat → Raises unit :=
  λ _, Raise (Exception "model not found").

(** Fails on the first attempt, succeeds from the second on. *)
Definition loads_second_time : nat → Raises unit :=
  λ attempt,
    match attempt with
    | 0 => Raise (Exception "connection reset")
    | S _ => Ret ()
    end.

Definition scoring (kind : string) (s : Q) : BaseEvaluator.t :=
  BaseEvaluator.__init__ loads_fine
    (λ _ _, Ret (mkOutcome (Some s) None kind [])).

Definition faulting (msg : string) : BaseEvaluator.t :=
  BaseEvaluator.__init__ loads_fine (λ _ _, Raise (Exception msg)).

(** An evaluator whose model can never be loaded. *)
Definition unloadable : BaseEvaluator.t :=
  BaseEvaluator.__init__ never_loads (λ _ _, Raise (Exception "no model")).

Definition hallucination : BaseEvaluator.t :=
  HallucinationEvaluator.__init__
    (λ _ _, Raise (Exception "no model")) loads_fine.

Definition service : EvaluationService.t :=
  EvaluationService.__init__
    (scoring "toxicity" 0.2%Q) (scoring "pii" 0.0%Q) (scoring "bias" 0.0%Q)
    hallucination.

(** The same service with a bias evaluator that raises. *)
Definition service_bias_faults (msg : string) : EvaluationService.t :=
  EvaluationService.__init__
    (scoring "toxicity" 0.2%Q) (scoring "pii" 0.0%Q) (faulting msg)
    hallucination.

(** The service once [initialize] has run. *)
Definition warm (self : EvaluationService.t) : EvaluationService.t :=
  (EvaluationService.initialize self).2.

(** A result dict that holds a score only. *)
Definition scored (kind : string) (s : Q) : Outcome :=
  mkOutcome (Some s) None kind [].

Definition raw_scores (toxicity pii bias hallucination : Q)
    : gmap string Outcome :=
  <["toxicity" := scored "toxicity" toxicity]>
    (<["pii" := scored "pii" pii]>
       (<["bias" := scored "bias" bias]>
          (<["hallucination" := scored "hallucination" hallucination]> ∅))).

End Fixtures.

(** ** [HallucinationEvaluator._split_into_sentences] and
       [_evaluate_with_context] *)

Module HallucinationContext.

(** [[.!?]] *)
Definition is_terminator (c : ascii) : bool :=
  Ascii.eqb c "." || Ascii.eqb c "!" || Ascii.eqb c "?".

(** [re.split(r'[.!?]+', s)]: the pieces between the maximal runs of
    terminators, the first and the last possibly empty.  [in_run] tells that
    the character before [s] was a terminator; the head of the result is
    the piece that [s] starts in. *)
Fixpoint re_split (s : string) (in_run : bool) : list string :=
  match s with
  | EmptyString => [EmptyString]
  | String c s' =>
      if is_terminator c then
        if in_run then re_split s' true
        else EmptyString :: re_split s' true
      else
        match re_split s' false with
        | piece :: pieces => String c piece :: pieces
        | [] => [String c EmptyString]
        end
  end.

(** [str.isspace] on ASCII: tab to carriage return, the four separators
    and the space. *)
Definition is_space (c : ascii) : bool :=
  let n := nat_of_ascii c in
  ((9 <=? n) && (n <=? 13)) || ((28 <=? n) && (n <=? 32)).

Fixpoint lstrip (s : string) : string :=
  match s with
  | EmptyString => EmptyString
  | String c s' => if is_space c then lstrip s' else s
  end.

Fixpoint rstrip (s : string) : string :=
  match s with
  | EmptyString => EmptyString
  | String c s' =>
      match rstrip s' with
      | EmptyString => if is_space c then EmptyString else String c EmptyString
      | rest => String c rest
      end
  end.

(** [s.strip()] *)
Definition strip (s : string) : string := rstrip (lstrip s).

(** [[s.strip() for s in re.split(r'[.!?]+', text) if s.strip()]] *)
Definition _split_into_sentences (text : string) : list string :=
  omap (λ s, match strip s with
             | EmptyString => None
             | sentence => Some sentence
             end)
       (re_split text false).

(** [str.isascii] *)
Definition isascii (s : string) : bool :=
  forallb (λ c, nat_of_ascii c <? 128) (String.list_ascii_of_string s).

(** No character of the string is a terminator. *)
Definition plain (s : string) : Prop :=
  Forall (λ c, is_terminator c = false) (String.list_ascii_of_string s).

(** The string has nothing but terminators and white space. *)
Definition blank (s : string) : Prop :=
  Forall (λ c, is_terminator c || is_space c = true)
    (String.list_ascii_of_string s).

(** The dict returned by [_evaluate_with_context]; the early return for a
    text without sentences has no ["problematic_sentences"]. *)
Record Result : Type := mkResult {
  score : Q;
  is_hallucinated : bool;
  confidence : Q;
  problematic_sentences : option (list (string * Q))
}.

Definition contradiction_threshold : Q := 0.7%Q.

(** The loop over [nli_scores]: the first of three numbers, else 0.0. *)
Definition contradiction (row : list Q) : Q :=
  match row with
  | [c; _; _] => c
  | _ => 0.0%Q
  end.

(** [x > contradiction_threshold] *)
Definition above_threshold (x : Q) : bool :=
  if Qlt_le_dec contradiction_threshold x then true else false.

Section WithModel.

(** [self.model.predict]: the cross-encoder, one row per pair; and
    [np.mean], whose summation in the precision of the array is not
    embedded. *)
Variable predict : list (string * string) → Raises (list (list Q)).
Variable np_mean : list Q → Q.

Definition _evaluate_with_context (text context : string) : Raises Result :=
  let sentences := _split_into_sentences text in
  match sentences with
  | [] => Ret (mkResult 0.0%Q false 0.0%Q None)
  | _ =>
      let sentence_pairs := (λ sentence, (sentence, context)) <$> sentences in
      match predict sentence_pairs with
      | Raise e => Raise e
      | Ret nli_scores =>
          let contradiction_scores := contradiction <$> nli_scores in
          let avg_contradiction :=
            match contradiction_scores with
            | [] => 0.0%Q
            | _ => np_mean contradiction_scores
            end in
          let is_hallucinated := above_threshold avg_contradiction in
          let problematic_sentences :=
            filter (λ p, above_threshold p.2 = true)
                   (zip sentences contradiction_scores) in
          Ret (mkResult avg_contradiction is_hallucinated avg_contradiction
                 (Some problematic_sentences))
      end
  end.

End WithModel.

End HallucinationContext.

(** ** [PIIEvaluator] *)

Module PIIEvaluator.

(** An entity of the NER pipeline. *)
Record Entity : Type := mkEntity {
  entity_group : string;
  word : string;
  entity_score : Q;
  entity_start : nat;
  entity_end : nat
}.

(** A detected item: from the NER model with a score, from a pattern
    without. *)
Record Detected : Type := mkDetected {
  found_text : string;
  found_score : option Q;
  found_start : nat;
  found_end : nat
}.

Definition pii_types : list string :=
  ["PERSON"; "ORGANIZATION"; "LOCATION"; "DATE";
   "PHONE"; "EMAIL"; "IP_ADDRESS"; "CREDIT_CARD";
   "SSN"; "DRIVER_LICENSE"].

(** [self.regex_patterns], in the order of the dict. *)
Definition regex_patterns : list (string * string) :=
  [("EMAIL", "\b[A-Za-z0-9._%+-]+@[A-Za-z0-9.-]+\.[A-Z|a-z]{2,}\b");
   ("PHONE",
    "\b(?:\+?\d{1,3}[-.\s]?)?\(?\d{3}\)?[-.\s]?\d{3}[-.\s]?\d{4}\b");
   ("IP_ADDRESS", "\b\d{1,3}\.\d{1,3}\.\d{1,3}\.\d{1,3}\b");
   ("CREDIT_CARD",
    "\b(?:4[0-9]{12}(?:[0-9]{3})?|5[1-5][0-9]{14}|3[47][0-9]{13}|3(?:0[0-5]|[68][0-9])[0-9]{11})\b");
   ("SSN", "\b\d{3}[-.]?\d{2}[-.]?\d{4}\b");
   ("DRIVER_LICENSE", "\b[A-Za-z]\d{4,8}\b")].

(** [regex_patterns.get(pii_type)] *)
Fixpoint pattern_of (pii_type : string) (patterns : list (string * string))
    : option string :=
  match patterns with
  | [] => None
  | (k, pattern) :: rest =>
      if decide (k = pii_type) then Some pattern else pattern_of pii_type rest
  end.

(** The dict made from a match: its text, start and end. *)
Definition of_match (m : string * nat * nat) : Detected :=
  mkDetected m.1.1 None m.1.2 m.2.

Definition of_entity (entity : Entity) : Detected :=
  mkDetected (word entity) (Some (entity_score entity))
    (entity_start entity) (entity_end entity).

(** [_process_ner_results] *)
Definition _process_ner_results (ner_results : list Entity)
    : gmap string (list Detected) :=
  foldl
    (λ entities entity,
       let entity_type := entity_group entity in
       if bool_decide (entity_type ∈ pii_types) then
         <[entity_type :=
             default [] (entities !! entity_type) ++ [of_entity entity]]>
           entities
       else entities)
    ∅ ner_results.

Section WithModels.

(** [self.ner_pipeline], and [re.finditer(pattern, text, re.IGNORECASE)]
    as the list of its matches (text, start, end). *)
Variable ner_pipeline : string → Raises (list Entity).
Variable finditer : string → string → list (string * nat * nat).

(** One iteration of the loop of [_check_with_regex]. *)
Definition check_pattern (text : string)
    (results : gmap string (list Detected)) (entry : string * string)
    : gmap string (list Detected) :=
  let '(pii_type, pattern) := entry in
  match of_match <$> finditer pattern text with
  | [] => results
  | matches => <[pii_type := matches]> results
  end.

(** [_check_with_regex]: the types whose pattern matches somewhere. *)
Definition _check_with_regex (text : string) : gmap string (list Detected) :=
  foldl (check_pattern text) ∅ regex_patterns.

Record Result : Type := mkResult {
  score : Q;
  detected_pii : gmap string (list Detected);
  has_pii : bool;
  error : option string
}.

(** The [try] block of [evaluate] and its [except] branch. *)
Definition evaluate_body (text : string) : Result :=
  match ner_pipeline text with
  | Raise e => mkResult 0.0%Q ∅ false (Some (str e))
  | Ret ner_results =>
      let regex_matches := _check_with_regex text in
      let detected_entities := _process_ner_results ner_results in
      (* [detected_entities.update(regex_matches)] *)
      let detected_entities := regex_matches ∪ detected_entities in
      let pii_score :=
        Qmin 1.0%Q (inject_Z (Z.of_nat (size detected_entities)) * 0.2)%Q in
      mkResult pii_score detected_entities
        (bool_decide (0 < size detected_entities)) None
  end.

End WithModels.

End PIIEvaluator.

(** ** [ToxicityEvaluator] *)

Module ToxicityEvaluator.

Definition labels : list string :=
  ["toxic"; "severe_toxic"; "obscene"; "threat"; "insult"; "identity_hate"].

Record Result : Type := mkResult {
  score : Q;
  scores : gmap string Q;
  is_toxic : bool;
  error : option string
}.

(** [{label: float(score) for label, score in zip(...)}]: a label that
    comes twice keeps its last score. *)
Definition to_dict (pairs : list (string * Q)) : gmap string Q :=
  foldl (λ d p, <[p.1 := p.2]> d) ∅ pairs.

(** [max(values)] of a sequence with first element [x]. *)
Definition maximum (x : Q) (rest : list Q) : Q := foldl Qmax x rest.

(** [max(scores.values()) if scores else 0.0] *)
Definition overall (d : gmap string Q) : Q :=
  match (map_to_list d).*2 with
  | [] => 0.0%Q
  | x :: rest => maximum x rest
  end.

(** [x > 0.5] *)
Definition above_half (x : Q) : bool :=
  if Qlt_le_dec 0.5%Q x then true else false.

Section WithModel.

(** [self.pipeline(text, candidate_labels=..., multi_label=True)]: the
    labels and their scores. *)
Variable pipeline : string → Raises (list string * list Q).

(** The [try] block of [evaluate] and its [except] branch. *)
Definition evaluate_body (text : string) : Result :=
  match pipeline text with
  | Raise e =>
      mkResult 0.0%Q (to_dict ((λ label, (label, 0.0%Q)) <$> labels)) false
        (Some (str e))
  | Ret (result_labels, result_scores) =>
      let scores := to_dict (zip result_labels result_scores) in
      let overall_score := overall scores in
      mkResult overall_score scores (above_half overall_score) None
  end.

End WithModel.

End ToxicityEvaluator.

(** ** [BiasEvaluator] *)

Module BiasEvaluator.

Definition bias_categories : list string :=
  ["gender"; "race_ethnicity"; "religion"; "age";
   "nationality"; "sexual_orientation"; "disability";
   "social_class"; "political"; "other"].

Record Result : Type := mkResult {
  score : Q;
  bias_scores : gmap string Q;
  top_biases : list (string * Q);
  has_bias : bool;
  error : option string
}.

(** [torch] is used in [evaluate] and imported nowhere in the module (its
    imports are numpy, transformers, tensorflow and loguru): evaluating the
    name raises this [NameError]. *)
Definition torch_undefined : PyExn :=
  Exception "name 'torch' is not defined".

Section WithModel.

(** [self.tokenizer(text, ...)]: the inputs are used only after the
    statement that raises, so only whether the call raises is kept. *)
Variable tokenizer : string → Raises unit.

(** The [try] block of [evaluate], up to [with torch.no_grad():], and its
    [except] branch. *)
Definition evaluate_body (text : string) : Result :=
  let attempt : Raises Result :=
    match tokenizer text with
    | Raise e => Raise e
    | Ret _ => Raise torch_undefined
    end in
  match attempt with
  | Ret result => result
  | Raise e =>
      mkResult 0.0%Q
        (list_to_map ((λ category, (category, 0.0%Q)) <$> bias_categories))
        [] false (Some (str e))
  end.

End WithModel.

End BiasEvaluator.

(** ** The endpoints of [app/api/endpoints/evaluate.py] *)

Module Endpoints.

(** What the handler of a route does: it returns a result, which the
    framework then checks against the response model of the route before it
    replies, or it raises an [HTTPException]. *)
Inductive Handled : Type :=
| Returns (result : EvaluationService.Response)
| HTTPException (status_code : nat) (detail : string).

(** The body of [evaluate_text]: every exception of the service becomes a
    500. *)
Definition evaluate_text (service : EvaluationService.t) (text : string)
    (context : option string) (evaluations : option (list string))
    : Handled * EvaluationService.t :=
  match EvaluationService.evaluate_text service text context evaluations with
  | (Ret result, service') => (Returns result, service')
  | (Raise e, service') =>
      (HTTPException 500
         (String.append "An error occurred during evaluation: " (str e)),
       service')
  end.

Record HealthCheck : Type := mkHealthCheck {
  status : string;
  version : string;
  model_status : gmap string string
}.

(** ["loaded" if evaluators[kind]._is_initialized else "not loaded"], or the
    [KeyError] of the subscript. *)
Definition model_state (service : EvaluationService.t) (kind : string)
    : Raises string :=
  match EvaluationService.evaluators service !! kind with
  | Some evaluator =>
      Ret (if BaseEvaluator._is_initialized evaluator
           then "loaded" else "not loaded")
  | None => Raise (Exception (String.append "'" (String.append kind "'")))
  end.

(** [health_check]: the dict literal is evaluated key by key; a missing
    evaluator makes the whole check unhealthy. *)
Definition health_check (service : EvaluationService.t) : HealthCheck :=
  match model_state service "toxicity", model_state service "pii",
        model_state service "bias", model_state service "hallucination" with
  | Ret toxicity, Ret pii, Ret bias, Ret hallucination =>
      mkHealthCheck "healthy" "1.0.0"
        (<["toxicity" := toxicity]>
           (<["pii" := pii]>
              (<["bias" := bias]>
                 (<["hallucination" := hallucination]> ∅))))
  | Raise e, _, _, _
  | Ret _, Raise e, _, _
  | Ret _, Ret _, Raise e, _
  | Ret _, Ret _, Ret _, Raise e =>
      mkHealthCheck "unhealthy" "1.0.0" {["error" := str e]}
  end.

End Endpoints.

(** * Properties *)

(** ** Rounding *)

Section Rounding.
Local Open Scope Q_scope.

Lemma round_half_even_floor (x : Q) :
  (Qfloor x <= round_half_even x <= Qfloor x + 1)%Z.
Proof.
  unfold round_half_even.
  destruct (x - inject_Z (Qfloor x) ?= 1 # 2); [destruct (Z.even _)| |]; lia.
Qed.

Lemma round_half_even_near (x : Q) :
  x - (1 # 2) <= inject_Z (round_half_even x) <= x + (1 # 2).
Proof.
  unfold round_half_even.
  pose proof (Qfloor_le x) as Hlo. pose proof (Qlt_floor x) as Hhi.
  rewrite inject_Z_plus in Hhi. change (inject_Z 1) with 1 in Hhi.
  destruct (Qcompare_spec (x - inject_Z (Qfloor x)) (1 # 2)) as [He|Hl|Hg].
  - destruct (Z.even _); rewrite ?inject_Z_plus; change (inject_Z 1) with 1;
      split; lra.
  - split; lra.
  - rewrite inject_Z_plus. change (inject_Z 1) with 1. split; lra.
Qed.

Lemma round_half_even_mono (x y : Q) :
  x <= y → (round_half_even x <= round_half_even y)%Z.
Proof.
  intros Hxy.
  pose proof (Qfloor_resp_le _ _ Hxy) as Hfl.
  destruct (decide (Qfloor x = Qfloor y)) as [Heq|Hne].
  - unfold round_half_even. rewrite <- Heq.
    destruct (Qcompare_spec (x - inject_Z (Qfloor x)) (1 # 2));
      destruct (Qcompare_spec (y - inject_Z (Qfloor x)) (1 # 2));
      try destruct (Z.even _); try lia; exfalso; lra.
  - pose proof (round_half_even_floor x). pose proof (round_half_even_floor y).
    lia.
Qed.

Lemma round_half_even_Z (z : Z) : round_half_even (inject_Z z) = z.
Proof.
  unfold round_half_even. rewrite Qfloor_Z.
  destruct (Qcompare_spec (inject_Z z - inject_Z z) (1 # 2)) as [He|Hl|Hg];
    [exfalso; lra | done | exfalso; lra].
Qed.

Lemma round_2 (x : Q) :
  round x 2 == inject_Z (round_half_even (x * 100)) * (1 # 100).
Proof.
  unfold round. change (inject_Z (10 ^ Z.of_nat 2)) with 100.
  unfold Qdiv. reflexivity.
Qed.

End Rounding.

Global Instance round_half_even_proper : Proper (Qeq ==> eq) round_half_even.
Proof.
  intros x y Hxy. unfold round_half_even.
  rewrite (Qfloor_comp _ _ Hxy).
  assert ((x - inject_Z (Qfloor y) ?= 1 # 2)%Q
          = (y - inject_Z (Qfloor y) ?= 1 # 2)%Q) as ->; [|done].
  apply Qcompare_comp; [by rewrite Hxy | reflexivity].
Qed.

Global Instance round_proper : Proper (Qeq ==> eq ==> Qeq) round.
Proof.
  intros x y Hxy n ? <-. unfold round. by rewrite Hxy.
Qed.

(** ** The fusion loop *)

Section Fusion.
Import EvaluationService.
Local Open Scope Q_scope.

Lemma weights_Some (k : string) (w : Q) :
  weights !! k = Some w →
  (k = "toxicity" ∧ w = 0.4) ∨ (k = "pii" ∧ w = 0.3) ∨
  (k = "bias" ∧ w = 0.2) ∨ (k = "hallucination" ∧ w = 0.1).
Proof.
  unfold weights. rewrite !lookup_insert, lookup_empty.
  repeat case_decide; naive_solver.
Qed.



Lemma accumulate_skip (k : string) (result : Outcome) (acc : Q * Q) :
  weights !! k = None ∨ score result = None → accumulate k result acc = acc.
Proof.
  unfold accumulate. intros [-> | ->]; [done|]. by destruct (weights !! k).
Qed.

(** The loop only adds: an iteration from any accumulator is the
    accumulator plus the iteration from zero. *)
Lemma accumulate_shift (k : string) (result : Outcome) (acc : Q * Q) :
  (accumulate k result acc).1
    == acc.1 + (accumulate k result (0.0, 0.0)).1 ∧
  (accumulate k result acc).2
    == acc.2 + (accumulate k result (0.0, 0.0)).2.
Proof.
  unfold accumulate.
  destruct (weights !! k), (score result); simpl; split; lra.
Qed.

Lemma share_insert (k : string) (result : Outcome) (m : gmap string Outcome) :
  share k (<[k := result]> m) = accumulate k result (0.0, 0.0).
Proof. unfold share. by rewrite lookup_insert_eq. Qed.

Lemma share_insert_ne (k k' : string) (result : Outcome)
    (m : gmap string Outcome) :
  k ≠ k' → share k' (<[k := result]> m) = share k' m.
Proof. intros ?. unfold share. by rewrite lookup_insert_ne. Qed.

Lemma share_unregistered (k : string) (m : gmap string Outcome) :
  m !! k = None → share k m = (0.0, 0.0).
Proof. intros H. unfold share. by rewrite H. Qed.

(** The totals in closed form: the sum of what the four kinds of the weight
    table add. *)
Lemma totals_shares (m : gmap string Outcome) :
  (totals m).1 ==
    (share "toxicity" m).1 + (share "pii" m).1 + (share "bias" m).1
    + (share "hallucination" m).1 ∧
  (totals m).2 ==
    (share "toxicity" m).2 + (share "pii" m).2 + (share "bias" m).2
    + (share "hallucination" m).2.
Proof.
  unfold totals.
  apply (map_fold_weak_ind (λ r m,
    r.1 == (share "toxicity" m).1 + (share "pii" m).1 + (share "bias" m).1
           + (share "hallucination" m).1 ∧
    r.2 == (share "toxicity" m).2 + (share "pii" m).2 + (share "bias" m).2
           + (share "hallucination" m).2)).
  { rewrite !share_unregistered by apply lookup_empty. simpl. split; lra. }
  intros k result m' r Hk [IH1 IH2].
  destruct (accumulate_shift k result r) as [-> ->].
  destruct (weights !! k) as [w|] eqn:Hw.
  - apply weights_Some in Hw as [[-> _]|[[-> _]|[[-> _]|[-> _]]]];
      rewrite share_insert, !share_insert_ne by done;
      rewrite IH1, IH2, (share_unregistered _ _ Hk); simpl; split; lra.
  - rewrite (accumulate_skip k result) by auto.
    assert (∀ k', is_Some (weights !! k') → k ≠ k') as Hne.
    { intros k' [w Hw'] <-. congruence. }
    rewrite !share_insert_ne by (apply Hne; by eexists).
    rewrite IH1, IH2. simpl. split; lra.
Qed.

End Fusion.

(** ** The safety score *)

Section SafetyScore.
Import EvaluationService.
Local Open Scope Q_scope.

Lemma safety_score_weighted (m : gmap string Outcome) :
  m ≠ ∅ → 0 < (totals m).2 →
  _calculate_safety_score m = round ((totals m).1 / (totals m).2 * 100) 2.
Proof.
  intros Hm Hw. unfold _calculate_safety_score.
  rewrite decide_False by done. destruct (totals m) as [ts tw]. cbn [fst snd] in *.
  destruct (Qlt_le_dec 0.0 tw) as [?|Hle]; [done|]. exfalso. lra.
Qed.

Lemma safety_score_unweighted (m : gmap string Outcome) :
  (totals m).2 <= 0 → _calculate_safety_score m == 0.
Proof.
  intros Hw. unfold _calculate_safety_score.
  case_decide; [done|]. destruct (totals m) as [ts tw]. cbn [fst snd] in *.
  destruct (Qlt_le_dec 0.0 tw) as [?|Hle]; [exfalso; lra | done].
Qed.

End SafetyScore.

Section FusionClaims.
Import EvaluationService Fixtures.
Local Open Scope Q_scope.

(** C2 (as amended).  On the raw scores toxicity 0.2, pii 0.0, bias 0.0,
    hallucination 0.0 the safety score is 82.0:
    (0.8*0.4 + 1.0*0.3 + 1.0*0.2 + 0.0*0.1) / 1.0 * 100. *)
Theorem fusion_example_is_82 :
  _calculate_safety_score (raw_scores 0.2 0.0 0.0 0.0) == 82.0.
Proof. by vm_compute. Qed.

(** C2 (as stated) fails: the score on these raw scores is not 92.0. *)
Lemma fusion_example_is_not_92 :
  ¬ (_calculate_safety_score (raw_scores 0.2 0.0 0.0 0.0) == 92.0).
Proof. by vm_compute. Qed.






End FusionClaims.

(** ** Rounding to binary64 *)

Section Binary64Rounding.
Import Float.
Local Open Scope Q_scope.

Lemma pow2_pos (e : Z) : 0 < 2 ^ e.
Proof. apply Qpower_0_lt. lra. Qed.

Lemma pow2_plus (a b : Z) : 2 ^ (a + b) == 2 ^ a * 2 ^ b.
Proof. apply Qpower_plus. lra. Qed.

Lemma pow2_le (a b : Z) : (a <= b)%Z → 2 ^ a <= 2 ^ b.
Proof. intros Hab. apply Qpower_le_compat_l; [done | lra]. Qed.

Lemma pow2_lt (a b : Z) : (a < b)%Z → 2 ^ a < 2 ^ b.
Proof. intros Hab. apply Qpower_lt_compat_l; [done | lra]. Qed.

Lemma pow2_cancel (e : Z) : 2 ^ (- e) * 2 ^ e == 1.
Proof.
  rewrite <- pow2_plus. replace (- e + e)%Z with 0%Z by lia. reflexivity.
Qed.

Lemma pow2_Z (a : Z) : (0 <= a)%Z → inject_Z (2 ^ a) == 2 ^ a.
Proof. intros Ha. by rewrite Zpower_Qpower. Qed.

Lemma log2_bounds (n : Z) :
  (0 < n)%Z →
  2 ^ Z.log2 n <= inject_Z n ∧ inject_Z n < 2 ^ (Z.log2 n + 1).
Proof.
  intros Hn. destruct (Z.log2_spec n Hn) as [Hlo Hhi].
  pose proof (Z.log2_nonneg n) as Hnn.
  rewrite <- !pow2_Z by lia. rewrite <- Zle_Qle, <- Zlt_Qlt.
  split; [done|]. by replace (Z.log2 n + 1)%Z with (Z.succ (Z.log2 n)) by lia.
Qed.

Lemma log2_floor_spec (x : Q) :
  0 < x → 2 ^ log2_floor x <= x ∧ x < 2 ^ (log2_floor x + 1).
Proof.
  intros Hx. unfold log2_floor.
  set (a := Z.log2 (Qnum x)). set (b := Z.log2 (Z.pos (Qden x))).
  assert (0 < Qnum x)%Z as Hn.
  { destruct x as [n d]. unfold Qlt in Hx. cbn in *. lia. }
  destruct (log2_bounds (Qnum x) Hn) as [Hna Hnb]. fold a in Hna, Hnb.
  destruct (log2_bounds (Z.pos (Qden x)) eq_refl) as [Hda Hdb].
  fold b in Hda, Hdb.
  assert (x * inject_Z (Z.pos (Qden x)) == inject_Z (Qnum x)) as Hxd.
  { destruct x as [n d]. unfold Qeq. cbn. lia. }
  generalize dependent (inject_Z (Qnum x)). intros nq Hna Hnb Hxd.
  generalize dependent (inject_Z (Z.pos (Qden x))). intros dq Hda Hdb Hxd.
  clearbody a b.
  pose proof (pow2_pos b) as Hb. pose proof (pow2_pos (a - b)) as Hl.
  assert (2 ^ (a + 1) == 2 ^ (a - b + 1) * 2 ^ b) as Hup.
  { rewrite <- pow2_plus. by replace (a - b + 1 + b)%Z with (a + 1)%Z by lia. }
  assert (2 ^ a == 2 ^ (a - b - 1) * 2 ^ (b + 1)) as Hdown.
  { rewrite <- pow2_plus. by replace (a - b - 1 + (b + 1))%Z with a by lia. }
  pose proof (pow2_pos (a - b + 1)) as Hp1.
  pose proof (pow2_pos (a - b - 1)) as Hp2.
  assert (0 < dq) as Hdq by lra.
  destruct (Qle_bool (2 ^ (a - b)) x) eqn:Hcmp.
  - apply Qle_bool_iff in Hcmp. split; [done|].
    apply Qnot_le_lt. intros Hge.
    assert (2 ^ (a - b + 1) * 2 ^ b <= x * dq); [|lra].
    apply Qmult_le_compat_nonneg; split; lra.
  - assert (x < 2 ^ (a - b)) as Hlt.
    { apply Qnot_le_lt. intros Hle. apply Qle_bool_iff in Hle. congruence. }
    replace (a - b - 1 + 1)%Z with (a - b)%Z by lia. split; [|done].
    apply Qnot_lt_le. intros Hlt'.
    assert (x * dq <= 2 ^ (a - b - 1) * dq)
      by (apply Qmult_le_compat_r; lra).
    assert (2 ^ (a - b - 1) * dq < 2 ^ (a - b - 1) * 2 ^ (b + 1))
      by (apply Qmult_lt_l; lra).
    lra.
Qed.

Lemma log2_floor_unique (x : Q) (l : Z) :
  2 ^ l <= x → x < 2 ^ (l + 1) → log2_floor x = l.
Proof.
  intros Hlo Hhi. pose proof (pow2_pos l).
  destruct (log2_floor_spec x) as [Hlo' Hhi']; [lra|].
  destruct (Z.lt_trichotomy (log2_floor x) l) as [Hlt|[Heq|Hgt]]; [|done|].
  - pose proof (pow2_le (log2_floor x + 1) l ltac:(lia)). lra.
  - pose proof (pow2_le (l + 1) (log2_floor x) ltac:(lia)). lra.
Qed.

Lemma log2_floor_mono (x y : Q) :
  0 < x → x <= y → (log2_floor x <= log2_floor y)%Z.
Proof.
  intros Hx Hxy.
  destruct (log2_floor_spec x) as [Hlo Hhi]; [done|].
  destruct (log2_floor_spec y) as [Hlo' Hhi']; [lra|].
  destruct (Z_le_gt_dec (log2_floor x) (log2_floor y)) as [|Hgt]; [done|].
  pose proof (pow2_le (log2_floor y + 1) (log2_floor x) ltac:(lia)). lra.
Qed.

Lemma Qabs_of_nonneg (x : Q) : 0 <= x → Qabs x = x.
Proof.
  destruct x as [n d]. unfold Qle. cbn. intros Hn.
  rewrite Z.abs_eq by lia. done.
Qed.

Lemma exponent_mono (x y : Q) :
  0 < x → x <= y → (exponent x <= exponent y)%Z.
Proof.
  intros Hx Hxy. unfold exponent.
  rewrite !Qabs_of_nonneg by lra.
  pose proof (log2_floor_mono x y Hx Hxy). lia.
Qed.

Lemma exponent_upper (x : Q) : 0 < x → x < 2 ^ (exponent x + 53).
Proof.
  intros Hx. unfold exponent. rewrite Qabs_of_nonneg by lra.
  destruct (log2_floor_spec x Hx) as [_ Hhi].
  pose proof (pow2_le (log2_floor x + 1)
                (Z.max (log2_floor x - 52) (-1074) + 53) ltac:(lia)).
  lra.
Qed.

Lemma exponent_lower (x : Q) :
  0 < x → (-1074 < exponent x)%Z → 2 ^ (exponent x + 52) <= x.
Proof.
  intros Hx. unfold exponent. rewrite Qabs_of_nonneg by lra. intros He.
  destruct (log2_floor_spec x Hx) as [Hlo _].
  replace (Z.max (log2_floor x - 52) (-1074) + 52)%Z with (log2_floor x)
    by lia.
  done.
Qed.

Lemma quantize_mono (e : Z) (x y : Q) : x <= y → quantize e x <= quantize e y.
Proof.
  intros Hxy. unfold quantize.
  pose proof (pow2_pos e). pose proof (pow2_pos (- e)).
  apply Qmult_le_compat_r; [|lra].
  rewrite <- Zle_Qle. apply round_half_even_mono.
  apply Qmult_le_compat_r; lra.
Qed.

Lemma quantize_grid (e e' m : Z) :
  (e <= e')%Z → quantize e (inject_Z m * 2 ^ e') == inject_Z m * 2 ^ e'.
Proof.
  intros He. unfold quantize.
  assert (inject_Z m * 2 ^ e' * 2 ^ (- e) == inject_Z (m * 2 ^ (e' - e)))
    as ->.
  { rewrite inject_Z_mult, pow2_Z by lia.
    replace (e' - e)%Z with (e' + - e)%Z by lia. rewrite pow2_plus. ring. }
  rewrite round_half_even_Z, inject_Z_mult, pow2_Z by lia.
  replace (e' - e)%Z with (e' + - e)%Z by lia. rewrite pow2_plus.
  pose proof (pow2_cancel e). 
  transitivity (inject_Z m * 2 ^ e' * (2 ^ (- e) * 2 ^ e)); [ring|].
  rewrite pow2_cancel. ring.
Qed.

Lemma quantize_near (e : Z) (x : Q) :
  x - 2 ^ e * (1 # 2) <= quantize e x <= x + 2 ^ e * (1 # 2).
Proof.
  unfold quantize.
  pose proof (round_half_even_near (x * 2 ^ (- e))) as [Hlo Hhi].
  pose proof (pow2_pos e) as He. pose proof (pow2_cancel e) as Hc.
  assert (x == x * 2 ^ (- e) * 2 ^ e) as Hx.
  { transitivity (x * (2 ^ (- e) * 2 ^ e)); [rewrite Hc|]; ring. }
  clear Hc.
  generalize dependent (inject_Z (round_half_even (x * 2 ^ (- e)))).
  intros r Hlo Hhi.
  generalize dependent (x * 2 ^ (- e)). intros y Hx Hlo Hhi.
  generalize dependent (2 ^ e). intros p Hp Hx.
  split.
  - assert ((y - (1 # 2)) * p <= r * p)
      by (apply Qmult_le_compat_r; lra).
    rewrite Hx. lra.
  - assert (r * p <= (y + (1 # 2)) * p)
      by (apply Qmult_le_compat_r; lra).
    rewrite Hx. lra.
Qed.

Lemma quantize_zero (e : Z) (x : Q) : x == 0 → quantize e x == 0.
Proof.
  intros Hx. unfold quantize.
  assert (x * 2 ^ (- e) == inject_Z 0) as -> by (rewrite Hx; ring).
  rewrite round_half_even_Z. ring.
Qed.

Lemma quantize_nonneg (e : Z) (x : Q) : 0 <= x → 0 <= quantize e x.
Proof.
  intros Hx. rewrite <- (quantize_zero e 0) by reflexivity.
  by apply quantize_mono.
Qed.

Lemma rne_quantize (x : Q) : rne x == quantize (exponent x) x.
Proof. apply Qred_correct. Qed.

Lemma rne_zero (x : Q) : x == 0 → rne x == 0.
Proof. intros Hx. rewrite rne_quantize. by apply quantize_zero. Qed.

Lemma rne_nonneg (x : Q) : 0 <= x → 0 <= rne x.
Proof. intros Hx. rewrite rne_quantize. by apply quantize_nonneg. Qed.

(** Rounding is monotone (on the values the aggregator handles, which are
    not negative). *)
Lemma rne_mono (x y : Q) : 0 <= x → x <= y → rne x <= rne y.
Proof.
  intros Hx Hxy.
  destruct (Qlt_le_dec 0 x) as [Hpos|Hzero].
  - rewrite !rne_quantize.
    pose proof (exponent_mono x y Hpos Hxy) as He.
    destruct (decide (exponent x = exponent y)) as [->|Hne].
    { by apply quantize_mono. }
    assert (-1074 < exponent y)%Z as Hy.
    { unfold exponent in *. lia. }
    pose proof (exponent_lower y ltac:(lra) Hy) as Hlo.
    pose proof (exponent_upper x Hpos) as Hhi.
    pose proof (pow2_le (exponent x + 53) (exponent y + 52) ltac:(lia)).
    pose proof (quantize_grid (exponent x) (exponent y + 52) 1 ltac:(lia))
      as Hgx.
    pose proof (quantize_grid (exponent y) (exponent y + 52) 1 ltac:(lia))
      as Hgy.
    pose proof (quantize_mono (exponent x) x
                  (inject_Z 1 * 2 ^ (exponent y + 52))).
    pose proof (quantize_mono (exponent y)
                  (inject_Z 1 * 2 ^ (exponent y + 52)) y).
    change (inject_Z 1) with 1 in *.
    lra.
  - rewrite (rne_zero x) by lra. apply rne_nonneg. lra.
Qed.

Lemma exponent_proper (x y : Q) : ¬ x == 0 → x == y → exponent x = exponent y.
Proof.
  intros Hx Hxy. unfold exponent. f_equal. f_equal.
  assert (0 < Qabs x) as Hpos.
  { pose proof (Qabs_case x (λ a, a == 0 → x == 0)) as Hc.
    destruct (Qlt_le_dec 0 (Qabs x)) as [|Hle]; [done|].
    pose proof (Qabs.Qabs_nonneg x).
    exfalso. apply Hx. apply Hc; intros; lra. }
  destruct (log2_floor_spec (Qabs x) Hpos) as [Hlo Hhi].
  assert (Qabs y == Qabs x) as Hab by (apply Qabs_wd; by symmetry).
  symmetry. apply log2_floor_unique; by rewrite Hab.
Qed.

Lemma rne_proper (x y : Q) : x == y → rne x = rne y.
Proof.
  intros Hxy. apply Qred_complete.
  destruct (Qeq_dec x 0) as [Hx|Hx].
  - rewrite !quantize_zero; [reflexivity | by rewrite <- Hxy | done].
  - rewrite <- (exponent_proper x y Hx Hxy). unfold quantize.
    generalize (exponent x). intros e. by rewrite Hxy.
Qed.

Lemma of_Q_proper (x y : Q) : x == y → of_Q x = of_Q y.
Proof. intros Hxy. unfold of_Q. by rewrite (rne_proper x y Hxy). Qed.

End Binary64Rounding.

(** ** Binary64 values of moderate size *)

Section Binary64Values.
Import Float.
Local Open Scope Q_scope.

Lemma log2_floor_below (x : Q) (k : Z) :
  0 < x → x < 2 ^ k → (log2_floor x < k)%Z.
Proof.
  intros Hx Hk. destruct (log2_floor_spec x Hx) as [Hlo _].
  destruct (Z_lt_le_dec (log2_floor x) k) as [|Hge]; [done|].
  pose proof (pow2_le k (log2_floor x) Hge). lra.
Qed.

Lemma exponent_below (x : Q) (k : Z) :
  0 < x → x < 2 ^ k → (-1021 <= k)%Z → (exponent x <= k - 53)%Z.
Proof.
  intros Hx Hk Hmin. unfold exponent. rewrite Qabs_of_nonneg by lra.
  pose proof (log2_floor_below x k Hx Hk). lia.
Qed.

(** The integers up to [2 ^ 53] are binary64 values. *)
Lemma rne_Z (z : Z) : (0 <= z < 2 ^ 53)%Z → rne (inject_Z z) == inject_Z z.
Proof.
  intros [Hlo Hhi]. destruct (decide (z = 0%Z)) as [->|Hne].
  { by apply rne_zero. }
  rewrite rne_quantize.
  assert (0 < inject_Z z) as Hpos.
  { change 0 with (inject_Z 0). rewrite <- Zlt_Qlt. lia. }
  assert (inject_Z z < 2 ^ 53) as Hlt.
  { rewrite <- (pow2_Z 53) by lia. by rewrite <- Zlt_Qlt. }
  pose proof (exponent_below _ 53 Hpos Hlt ltac:(lia)) as He.
  pose proof (quantize_grid (exponent (inject_Z z)) 0 z ltac:(lia)) as Hg.
  assert (inject_Z z * 2 ^ 0 == inject_Z z) as Hz by ring.
  generalize dependent (exponent (inject_Z z)). intros e _ Hg.
  unfold quantize in *.
  assert (inject_Z z * 2 ^ 0 * 2 ^ (- e) == inject_Z z * 2 ^ (- e)) as Hm
    by ring.
  rewrite Hm in Hg. rewrite Hg. ring.
Qed.

(** Below 128 a rounding moves a value by at most [2 ^ (-46)]. *)
Lemma rne_near (x : Q) :
  0 <= x <= 128 →
  x - (1 # 70368744177664) <= rne x <= x + (1 # 70368744177664).
Proof.
  intros [Hlo Hhi]. destruct (Qlt_le_dec 0 x) as [Hpos|Hzero].
  - rewrite rne_quantize.
    assert (x < 2 ^ 8) as Hlt.
    { assert (2 ^ 8 == 256) as -> by reflexivity. lra. }
    pose proof (exponent_below x 8 Hpos Hlt ltac:(lia)) as He.
    pose proof (quantize_near (exponent x) x) as Hn.
    pose proof (pow2_le _ _ He) as Hp.
    assert (2 ^ (8 - 53) == 1 # 35184372088832) as Hv by reflexivity.
    rewrite Hv in Hp. pose proof (pow2_pos (exponent x)).
    generalize dependent (quantize (exponent x) x).
    generalize dependent (2 ^ exponent x). intros. lra.
  - rewrite (rne_zero x) by lra. lra.
Qed.

Lemma of_Q_small (x : Q) :
  0 <= x <= 128 → of_Q x = Finite (rne x) ∧ 0 <= rne x <= 128.
Proof.
  intros [Hlo Hhi].
  pose proof (rne_nonneg x Hlo) as Hr0.
  pose proof (rne_mono x 128 Hlo Hhi) as Hr1.
  assert (rne 128 == 128) as H128 by exact (rne_Z 128 ltac:(lia)).
  rewrite H128 in Hr1. split; [|done].
  unfold of_Q. rewrite Qabs_of_nonneg by done.
  destruct (Qle_bool (2 ^ 1024) (rne x)) eqn:Hcmp; [|done].
  apply Qle_bool_iff in Hcmp.
  pose proof (pow2_lt 7 1024 ltac:(lia)) as Hp.
  assert (2 ^ 7 == 128) as H7 by reflexivity. lra.
Qed.

Lemma of_Q_unit (x : Q) :
  0 <= x <= 1 → of_Q x = Finite (rne x) ∧ 0 <= rne x <= 1.
Proof.
  intros [Hlo Hhi]. destruct (of_Q_small x) as [-> _]; [lra|].
  split; [done|]. split; [by apply rne_nonneg|].
  rewrite <- (rne_Z 1) by lia. by apply rne_mono.
Qed.

Lemma lt_Finite (p q : Q) : lt (Finite p) (Finite q) = true ↔ p < q.
Proof.
  cbn. rewrite negb_true_iff. split.
  - intros Hcmp. apply Qnot_le_lt. intros Hle.
    apply Qle_bool_iff in Hle. congruence.
  - intros Hlt. destruct (Qle_bool q p) eqn:Hcmp; [|done].
    apply Qle_bool_iff in Hcmp. lra.
Qed.

Lemma lt_Finite_false (p q : Q) : lt (Finite p) (Finite q) = false ↔ q <= p.
Proof.
  cbn. rewrite negb_false_iff. apply Qle_bool_iff.
Qed.

End Binary64Values.

(** ** The fusion loop over binary64 values *)

Section Binary64Fusion.
Import Float Binary64.
Local Open Scope Q_scope.

Lemma of_Q_zero : of_Q 0.0 = Finite 0.
Proof. by vm_compute. Qed.

Lemma of_Q_0 : of_Q 0 = Finite 0.
Proof. by vm_compute. Qed.

Lemma of_Q_one : of_Q 1.0 = Finite 1.
Proof. by vm_compute. Qed.


Lemma float_clamp_Finite (q : Q) :
  clamp (Finite q)
  = if negb (Qle_bool 0 q) then Finite 0
    else if negb (Qle_bool q 1) then Finite 1 else Finite q.
Proof.
  unfold clamp, max, min, gt. rewrite of_Q_zero, of_Q_one.
  cbn [lt]. destruct (Qle_bool 0 q) eqn:H0; cbn [negb].
  - cbn [lt]. done.
  - cbn [lt]. done.
Qed.


Lemma float_clamp_range (s : float) :
  s ≠ NaN → ∃ q, clamp s = Finite q ∧ 0 <= q <= 1.
Proof.
  intros Hs. destruct s as [|[]|q]; [done| | |].
  - exists 0. split; [by vm_compute|lra].
  - exists 1. split; [by vm_compute|lra].
  - rewrite float_clamp_Finite.
    destruct (Qle_bool 0 q) eqn:H0; cbn [negb].
    + apply Qle_bool_iff in H0.
      destruct (Qle_bool q 1) eqn:H1; cbn [negb].
      * apply Qle_bool_iff in H1. by exists q.
      * exists 1. split; [done|lra].
    + exists 0. split; [done|lra].
Qed.



Lemma le_Finite (p q : Q) : le (Finite p) (Finite q) = true ↔ p <= q.
Proof. apply Qle_bool_iff. Qed.

Lemma float_clamp_mono (s1 s2 : float) (q1 q2 : Q) :
  le s1 s2 = true → clamp s1 = Finite q1 → clamp s2 = Finite q2 → q1 <= q2.
Proof.
  intros Hle H1 H2.
  assert (s1 ≠ NaN) as Hs1 by (by destruct s1).
  assert (s2 ≠ NaN) as Hs2 by (by destruct s1, s2).
  destruct (float_clamp_range s1 Hs1) as (q1' & H1' & Hr1).
  destruct (float_clamp_range s2 Hs2) as (q2' & H2' & Hr2).
  assert (q1' = q1) as -> by congruence.
  assert (q2' = q2) as -> by congruence.
  destruct s1 as [|[]|p1]; [done| | |].
  - vm_compute in H1. injection H1 as <-. lra.
  - destruct s2 as [|[]|p2]; [done|done| |done].
    vm_compute in H2. injection H2 as <-. lra.
  - destruct s2 as [|[]|p2]; [done|done| |].
    + vm_compute in H2. injection H2 as <-. lra.
    + apply le_Finite in Hle. rewrite float_clamp_Finite in H1, H2.
      destruct (Qle_bool 0 p1) eqn:A1; cbn [negb] in H1;
        [apply Qle_bool_iff in A1|injection H1 as <-; lra].
      destruct (Qle_bool 0 p2) eqn:A2; cbn [negb] in H2.
      * destruct (Qle_bool p2 1) eqn:B2; cbn [negb] in H2;
          [|injection H2 as <-; lra].
        destruct (Qle_bool p1 1) eqn:B1; cbn [negb] in H1.
        -- injection H1 as <-. injection H2 as <-. done.
        -- apply Qle_bool_iff in B2.
           assert (¬ p1 <= 1) by (rewrite <- Qle_bool_iff; congruence). lra.
      * assert (¬ 0 <= p2) by (rewrite <- Qle_bool_iff; congruence). lra.
Qed.

(** The weights are binary64 values between 1/16 and 1/2. *)
Lemma float_weights_finite (k : string) (w : float) :
  weights k = Some w →
  ∃ wq, w = Finite wq ∧ rne wq == wq ∧ (1 # 16) <= wq <= (1 # 2).
Proof.
  unfold weights. destruct (EvaluationService.weights !! k) as [q|] eqn:Hq;
    [|done].
  cbn. intros [= <-].
  apply weights_Some in Hq as [[_ ->]|[[_ ->]|[[_ ->]|[_ ->]]]];
    eexists; (split; [by vm_compute|]);
    (split; [by vm_compute|]); split; apply Qle_bool_imp_le; by vm_compute.
Qed.

Lemma float_weights_keys (k : string) :
  is_Some (weights k) → k ∈ ["toxicity"; "pii"; "bias"; "hallucination"].
Proof.
  unfold weights. intros [w Hw].
  destruct (EvaluationService.weights !! k) as [q|] eqn:Hq; [|done].
  apply weights_Some in Hq. rewrite !elem_of_cons. tauto.
Qed.

(** The value fused for one kind lies in [[0, 1]]. *)
Lemma float_normalized_range (k : string) (s : float) :
  s ≠ NaN → ∃ n, normalized k s = Finite n ∧ 0 <= n <= 1.
Proof.
  intros Hs. destruct (float_clamp_range s Hs) as (q & Hq & Hr).
  unfold normalized. rewrite Hq. case_decide.
  - rewrite of_Q_one. cbn [sub].
    destruct (of_Q_unit (1 - q)) as [-> Hn]; [lra|]. by eexists.
  - by exists q.
Qed.

(** The contribution of one kind lies between 0 and its weight. *)
Lemma float_contribution_range (k : string) (s : float) (wq : Q) :
  s ≠ NaN → rne wq == wq → (1 # 16) <= wq <= (1 # 2) →
  ∃ c, mul (normalized k s) (Finite wq) = Finite c ∧ 0 <= c <= wq.
Proof.
  intros Hs Hw Hr. destruct (float_normalized_range k s Hs) as (n & -> & Hn).
  cbn [mul]. destruct (of_Q_unit (n * wq)) as [-> Hc]; [nra|].
  eexists. split; [done|]. split; [lra|].
  rewrite <- Hw at 2. apply rne_mono; nra.
Qed.

End Binary64Fusion.

(** ** The accumulators of the loop *)

Section Binary64Totals.
Import Float Binary64.
Local Open Scope Q_scope.

Lemma accumulate_unweighted (acc : float * float)
    (item : string * option float) :
  ¬ weighted item → accumulate acc item = acc.
Proof.
  unfold weighted, accumulate. intros Hw.
  destruct (weights item.1) as [w|], item.2 as [s|]; try done.
  exfalso. apply Hw. split; by eexists.
Qed.

(** One addition to both accumulators, followed on two runs whose first
    accumulators and contributions are ordered. *)
Lemma add_step (a1 a2 c1 c2 b wq : Q) (n : Z) :
  0 <= a1 → a1 <= a2 → a2 <= b → b <= inject_Z n → (0 <= n < 100)%Z →
  0 <= c1 → c1 <= c2 → c2 <= wq →
  rne wq == wq → (1 # 16) <= wq <= (1 # 2) →
  ∃ a1' a2' b',
    add (Finite a1) (Finite c1) = Finite a1' ∧
    add (Finite a2) (Finite c2) = Finite a2' ∧
    add (Finite b) (Finite wq) = Finite b' ∧
    0 <= a1' ∧ a1' <= a2' ∧ a2' <= b' ∧ b' <= inject_Z (n + 1) ∧
    (1 # 16) <= b' ∧
    (a2 - a1) + (c2 - c1) - (1 # 35184372088832) <= a2' - a1'.
Proof.
  intros Ha1 Ha Hab Hb Hn Hc1 Hc Hcw Hw Hwr.
  assert (inject_Z n <= 99) as Hn'.
  { change 99 with (inject_Z 99). rewrite <- Zle_Qle. lia. }
  cbn [add].
  destruct (of_Q_small (a1 + c1)) as [-> _]; [lra|].
  destruct (of_Q_small (a2 + c2)) as [-> _]; [lra|].
  destruct (of_Q_small (b + wq)) as [-> _]; [lra|].
  eexists _, _, _. split_and!; try done.
  - apply rne_nonneg. lra.
  - apply rne_mono; lra.
  - apply rne_mono; lra.
  - rewrite <- (rne_Z (n + 1)) by lia. apply rne_mono; [lra|].
    rewrite inject_Z_plus. change (inject_Z 1) with 1. lra.
  - pose proof (rne_mono wq (b + wq)). lra.
  - pose proof (rne_near (a1 + c1) ltac:(lra)).
    pose proof (rne_near (a2 + c2) ltac:(lra)). lra.
Qed.

Lemma numeric_cons (item : string * option float)
    (items : list (string * option float)) :
  numeric (item :: items) = true → numeric items = true.
Proof. unfold numeric. cbn [forallb]. by intros [_ ?]%andb_true_iff. Qed.

Lemma numeric_head (k : string) (s : float) (w : float)
    (items : list (string * option float)) :
  numeric ((k, Some s) :: items) = true → weights k = Some w → s ≠ NaN.
Proof.
  unfold numeric. cbn [forallb fst snd]. intros [Hs _]%andb_true_iff Hw.
  rewrite Hw in Hs. by destruct s.
Qed.

Lemma numeric_app (before after : list (string * option float)) :
  numeric (before ++ after) = true ↔
  numeric before = true ∧ numeric after = true.
Proof. unfold numeric. by rewrite forallb_app, andb_true_iff. Qed.

(** The loop, followed on two runs that start from ordered scores and the
    same weight. *)
Lemma totals_from (items : list (string * option float)) (a1 a2 b : Q) (n : Z) :
  numeric items = true →
  0 <= a1 → a1 <= a2 → a2 <= b → b <= inject_Z n →
  (0 <= n)%Z → (n + Z.of_nat (length (filter weighted items)) < 100)%Z →
  ∃ a1' a2' b',
    foldl accumulate (Finite a1, Finite b) items = (Finite a1', Finite b') ∧
    foldl accumulate (Finite a2, Finite b) items = (Finite a2', Finite b') ∧
    0 <= a1' ∧ a1' <= a2' ∧ a2' <= b' ∧
    b' <= inject_Z (n + Z.of_nat (length (filter weighted items))) ∧
    (filter weighted items = [] → a1' = a1 ∧ a2' = a2 ∧ b' = b) ∧
    (filter weighted items ≠ [] → (1 # 16) <= b') ∧
    (a2 - a1)
      - inject_Z (Z.of_nat (length (filter weighted items)))
        * (1 # 35184372088832)
    <= a2' - a1'.
Proof.
  revert a1 a2 b n.
  induction items as [|item items IH]; intros a1 a2 b n Hnum Ha1 Ha Hab Hb Hn.
  { cbn. intros _. exists a1, a2, b. split_and!; try done.
    - by rewrite Z.add_0_r.
    - change (inject_Z (Z.of_nat 0)) with 0. lra. }
  rewrite filter_cons. destruct (decide (weighted item)) as [Hw|Hw].
  - cbn [length foldl]. intros Hcount.
    destruct item as [k [s|]]; [|by destruct Hw as [_ [? ?]]].
    destruct Hw as [[w Hw] _]. cbn [fst] in Hw.
    pose proof (numeric_head k s w items Hnum Hw) as Hs.
    destruct (float_weights_finite k w Hw) as (wq & -> & Hrw & Hwr).
    destruct (float_contribution_range k s wq Hs Hrw Hwr) as (c & Hc & Hcr).
    destruct (add_step a1 a2 c c b wq n) as
      (a1' & a2' & b' & E1 & E2 & E3 & H1 & H2 & H3 & H4 & H5 & H6);
      try done; try lra; try lia.
    destruct (IH a1' a2' b' (n + 1)%Z) as
      (a1'' & a2'' & b'' & F1 & F2 & G1 & G2 & G3 & G4 & G5 & G6 & G7);
      try done; try lia.
    { by apply numeric_cons in Hnum. }
    exists a1'', a2'', b''.
    assert (accumulate (Finite a1, Finite b) (k, Some s)
            = (Finite a1', Finite b')) as ->.
    { unfold accumulate. cbn [fst snd]. rewrite Hw, Hc. by rewrite E1, E3. }
    assert (accumulate (Finite a2, Finite b) (k, Some s)
            = (Finite a2', Finite b')) as ->.
    { unfold accumulate. cbn [fst snd]. rewrite Hw, Hc. by rewrite E2, E3. }
    split_and!; try done.
    + replace (n + Z.of_nat (S (length (filter weighted items))))%Z
        with (n + 1 + Z.of_nat (length (filter weighted items)))%Z by lia. done.
    + intros _.
      destruct (filter weighted items) as [|x l] eqn:Hf.
      * destruct G5 as (_ & _ & ->); done.
      * by apply G6.
    + rewrite Nat2Z.inj_succ. unfold Z.succ. rewrite inject_Z_plus.
      change (inject_Z 1) with 1. lra.
  - cbn [foldl]. rewrite !accumulate_unweighted by done. intros Hcount.
    apply IH; try done. by apply numeric_cons in Hnum.
Qed.

End Binary64Totals.

(** ** The quotient and the rounding to two decimals *)

Section Binary64Score.
Import Float Binary64.
Local Open Scope Q_scope.

(** A dict holds at most the four kinds of the weight table. *)
Lemma weighted_count (items : list (string * option float)) :
  NoDup items.*1 → (length (filter weighted items) <= 4)%nat.
Proof.
  intros Hnd.
  assert (NoDup (filter weighted items).*1) as Hnd'.
  { eapply sublist_NoDup; [done|]. apply fmap_sublist, sublist_filter. }
  rewrite <- (length_fmap fst).
  change 4%nat with (length ["toxicity"; "pii"; "bias"; "hallucination"]).
  apply submseteq_length, NoDup_submseteq; [done|].
  intros k [item [-> Hin]]%list_elem_of_fmap.
  apply list_elem_of_filter in Hin as [[Hw _] _].
  by apply float_weights_keys.
Qed.

Lemma rne_100 : rne 100 == 100.
Proof. exact (rne_Z 100 ltac:(lia)). Qed.

(** The decimal rounding of a binary64 value between 0 and 100. *)
Lemma float_round_2 (y : Q) :
  0 <= y <= 100 →
  ∃ k : Z,
    k = round_half_even (y * 100) ∧ (0 <= k <= 10000)%Z ∧
    Float.round (Finite y) 2 = of_Q (k # 100) ∧
    of_Q (k # 100) = Finite (rne (k # 100)) ∧
    0 <= rne (k # 100) <= 100.
Proof.
  intros [Hlo Hhi]. exists (round_half_even (y * 100)).
  assert (0 <= round_half_even (y * 100) <= 10000)%Z as Hk.
  { split.
    - rewrite <- (round_half_even_Z 0). apply round_half_even_mono.
      change (inject_Z 0) with 0. lra.
    - rewrite <- (round_half_even_Z 10000). apply round_half_even_mono.
      change (inject_Z 10000) with 10000. lra. }
  set (k := round_half_even (y * 100)) in *.
  assert (0 <= k # 100 <= 100) as Hr.
  { unfold Qle. cbn. lia. }
  assert (Float.round (Finite y) 2 = of_Q (k # 100)) as Hround.
  { cbn [Float.round]. apply of_Q_proper. rewrite round_2. fold k.
    unfold Qeq. cbn. lia. }
  clearbody k. generalize dependent (k # 100). intros q Hr Hround.
  split_and!; try done; try lia.
  - by destruct (of_Q_small q) as [-> _]; [lra|].
  - apply rne_nonneg. lra.
  - pose proof rne_100. pose proof (rne_mono q 100 ltac:(lra) ltac:(lra)).
    lra.
Qed.

Lemma two_decimals_mono (k1 k2 : Z) :
  (0 <= k1)%Z → (k1 <= k2)%Z → rne (k1 # 100) <= rne (k2 # 100).
Proof.
  intros H0 Hk. apply rne_mono; unfold Qle; cbn; lia.
Qed.

Lemma two_decimals_strict (k1 k2 : Z) :
  (0 <= k1)%Z → (k1 < k2)%Z → (k2 <= 10000)%Z →
  rne (k1 # 100) < rne (k2 # 100).
Proof.
  intros H0 Hk H1.
  assert (0 <= k1 # 100 <= 128) as Hr1 by (unfold Qle; cbn; lia).
  assert (0 <= k2 # 100 <= 128) as Hr2 by (unfold Qle; cbn; lia).
  assert ((k1 # 100) + (1 # 100) <= k2 # 100) as Hgap
    by (unfold Qle; cbn; lia).
  pose proof (rne_near _ Hr1). pose proof (rne_near _ Hr2).
  generalize dependent (rne (k1 # 100)). generalize dependent (k1 # 100).
  generalize dependent (rne (k2 # 100)). generalize dependent (k2 # 100).
  intros. lra.
Qed.

(** The last lines of the method, from accumulators in range: the quotient,
    the factor 100 and the rounding, on two runs with ordered scores. *)
Lemma score_from_totals (a1 a2 b : Q) :
  0 <= a1 → a1 <= a2 → a2 <= b → (1 # 16) <= b → b <= 4 →
  ∃ y1 y2,
    truediv (Finite a1) (Finite b) = Some (of_Q (a1 / b)) ∧
    truediv (Finite a2) (Finite b) = Some (of_Q (a2 / b)) ∧
    mul (of_Q (a1 / b)) (of_Q 100) = Finite y1 ∧
    mul (of_Q (a2 / b)) (of_Q 100) = Finite y2 ∧
    0 <= y1 ∧ y1 <= y2 ∧ y2 <= 100 ∧
    ((1 # 20) <= a2 - a1 → y1 + 1 < y2).
Proof.
  intros Ha1 Ha Hab Hb Hb4.
  assert (∀ a, 0 <= a → a <= b → 0 <= a / b <= 1) as Hq.
  { intros a H0 H1. split.
    - apply Qle_shift_div_l; lra.
    - apply Qle_shift_div_r; lra. }
  assert (a1 / b <= a2 / b) as Hdiv.
  { unfold Qdiv. apply Qmult_le_compat_r; [done|].
    apply Qinv_le_0_compat. lra. }
  destruct (Hq a1 Ha1 ltac:(lra)) as [Hq1 Hq1'].
  destruct (Hq a2 ltac:(lra) Hab) as [Hq2 Hq2'].
  destruct (of_Q_unit (a1 / b)) as [E1 [L1 U1]]; [done|].
  destruct (of_Q_unit (a2 / b)) as [E2 [L2 U2]]; [done|].
  pose proof (rne_mono _ _ Hq1 Hdiv) as Hm.
  assert (of_Q 100 = Finite 100) as E100 by (by vm_compute).
  rewrite E1, E2, E100. cbn [mul].
  destruct (of_Q_small (rne (a1 / b) * 100)) as [F1 [M1 _]]; [lra|].
  destruct (of_Q_small (rne (a2 / b) * 100)) as [F2 [M2 _]]; [lra|].
  rewrite F1, F2. eexists _, _.
  assert (Qeq_bool b 0 = false) as Hb0.
  { destruct (Qeq_bool b 0) eqn:Hcmp; [|done].
    apply Qeq_bool_eq in Hcmp. lra. }
  split_and!; try done.
  - cbn [truediv]. by rewrite Hb0, E1.
  - cbn [truediv]. by rewrite Hb0, E2.
  - apply rne_mono; lra.
  - pose proof rne_100.
    pose proof (rne_mono (rne (a2 / b) * 100) 100 ltac:(lra) ltac:(lra)).
    lra.
  - intros Hgap.
    pose proof (rne_near (a1 / b) ltac:(lra)).
    pose proof (rne_near (a2 / b) ltac:(lra)).
    pose proof (rne_near (rne (a1 / b) * 100) ltac:(lra)).
    pose proof (rne_near (rne (a2 / b) * 100) ltac:(lra)).
    assert ((1 # 80) <= a2 / b - a1 / b) as Hquot.
    { assert (a2 / b - a1 / b == (a2 - a1) / b) as -> by (field; lra).
      apply Qle_shift_div_l; lra. }
    lra.
Qed.

End Binary64Score.

(** ** The safety score over binary64 values *)

Section Binary64SafetyScore.
Import Float Binary64.
Local Open Scope Q_scope.

Lemma two_decimals_finite (k : Z) :
  (0 <= k <= 10000)%Z →
  of_Q (k # 100) = Finite (rne (k # 100)) ∧ 0 <= rne (k # 100) <= 100.
Proof.
  intros Hk.
  assert (0 <= k # 100 <= 100) as Hr by (unfold Qle; cbn; lia).
  generalize dependent (k # 100). intros q Hr.
  destruct (of_Q_small q) as [-> [H0 _]]; [lra|].
  split; [done|]. split; [done|].
  pose proof rne_100. pose proof (rne_mono q 100 ltac:(lra) ltac:(lra)). lra.
Qed.

Lemma safety_score_nonempty (results : list (string * option float)) :
  results ≠ [] →
  _calculate_safety_score results
  = let '(total_score, total_weight) := totals results in
    if gt total_weight (of_Q 0) then
      match truediv total_score total_weight with
      | Some quotient => Ret (Float.round (mul quotient (of_Q 100)) 2)
      | None => Raise ZeroDivisionError
      end
    else Ret (Float.round (of_Q 0.0) 2).
Proof. by destruct results. Qed.

(** The score of two outcome sets whose loops end with the same total weight
    and ordered total scores. *)
Lemma score_of_totals (results1 results2 : list (string * option float))
    (a1 a2 b : Q) :
  results1 ≠ [] → results2 ≠ [] →
  totals results1 = (Finite a1, Finite b) →
  totals results2 = (Finite a2, Finite b) →
  0 <= a1 → a1 <= a2 → a2 <= b → b == 0 ∨ (1 # 16) <= b → b <= 4 →
  ∃ k1 k2 : Z,
    _calculate_safety_score results1 = Ret (of_Q (k1 # 100)) ∧
    _calculate_safety_score results2 = Ret (of_Q (k2 # 100)) ∧
    (0 <= k1)%Z ∧ (k1 <= k2)%Z ∧ (k2 <= 10000)%Z ∧
    ((1 # 20) <= a2 - a1 → (k1 < k2)%Z).
Proof.
  intros Hne1 Hne2 Ht1 Ht2 Ha1 Ha Hab Hb Hb4.
  rewrite !safety_score_nonempty by done. rewrite Ht1, Ht2.
  unfold gt. rewrite of_Q_0. destruct Hb as [Hb|Hb].
  - assert (lt (Finite 0) (Finite b) = false) as ->.
    { apply lt_Finite_false. lra. }
    exists 0%Z, 0%Z. split_and!; try done. intros ?. exfalso. lra.
  - assert (lt (Finite 0) (Finite b) = true) as ->.
    { apply lt_Finite. lra. }
    destruct (score_from_totals a1 a2 b) as
      (y1 & y2 & -> & -> & -> & -> & Hy1 & Hy & Hy2 & Hgap); try done.
    destruct (float_round_2 y1) as (k1 & Hk1 & Hr1 & -> & _); [lra|].
    destruct (float_round_2 y2) as (k2 & Hk2 & Hr2 & -> & _); [lra|].
    exists k1, k2. split_and!; try done; try lia.
    + subst k1 k2. apply round_half_even_mono. lra.
    + intros Hg. specialize (Hgap Hg).
      pose proof (round_half_even_near (y1 * 100)) as N1.
      pose proof (round_half_even_near (y2 * 100)) as N2.
      rewrite <- Hk1 in N1. rewrite <- Hk2 in N2.
      rewrite Zlt_Qlt. lra.
Qed.

Lemma totals_start (results : list (string * option float)) :
  totals results = foldl accumulate (Finite 0, Finite 0) results.
Proof. unfold totals. by rewrite of_Q_zero. Qed.

(** The score of an outcome set without NaN: a number of two decimals
    between 0 and 100. *)
Lemma safety_score_finite (results : list (string * option float)) :
  NoDup results.*1 → numeric results = true →
  ∃ k : Z, (0 <= k <= 10000)%Z ∧
    _calculate_safety_score results = Ret (of_Q (k # 100)).
Proof.
  intros Hnd Hnum. destruct (decide (results = [])) as [->|Hne].
  { exists 0%Z. split; [lia|]. by vm_compute. }
  pose proof (weighted_count results Hnd) as Hcount.
  destruct (totals_from results 0 0 0 0 Hnum) as
    (a & a' & b & E1 & E2 & H1 & H2 & H3 & H4 & H5 & H6 & _);
    try done; try lia.
  assert (a = a') as <- by congruence. clear E2 H2.
  rewrite <- totals_start in E1.
  assert (b <= 4) as Hb4.
  { assert (inject_Z (0 + Z.of_nat (length (filter weighted results)))
            <= 4); [|lra].
    change 4 with (inject_Z 4). rewrite <- Zle_Qle. lia. }
  destruct (score_of_totals results results a a b) as
    (k & k' & -> & _ & Hk0 & Hk & Hk1 & _); try done; try lra.
  - destruct (filter weighted results) eqn:Hf.
    + left. destruct H5 as (_ & _ & ->); done.
    + right. by apply H6.
  - exists k. split; [lia|done].
Qed.

End Binary64SafetyScore.

(** ** One score changed *)

Section Binary64Monotonicity.
Import Float Binary64.
Local Open Scope Q_scope.

Lemma le_numbers (s1 s2 : float) : le s1 s2 = true → s1 ≠ NaN ∧ s2 ≠ NaN.
Proof. by destruct s1, s2. Qed.

(** The contribution of a kind follows its score, upwards for hallucination
    and downwards for the other kinds. *)
Lemma contribution_mono (k : string) (s1 s2 : float) (wq c1 c2 : Q) :
  le s1 s2 = true → rne wq == wq → (1 # 16) <= wq <= (1 # 2) →
  mul (normalized k s1) (Finite wq) = Finite c1 →
  mul (normalized k s2) (Finite wq) = Finite c2 →
  (k = "hallucination" → c1 <= c2) ∧ (k ≠ "hallucination" → c2 <= c1).
Proof.
  intros Hle Hw Hwr. destruct (le_numbers s1 s2 Hle) as [Hs1 Hs2].
  destruct (float_clamp_range s1 Hs1) as (q1 & Hq1 & Hr1).
  destruct (float_clamp_range s2 Hs2) as (q2 & Hq2 & Hr2).
  pose proof (float_clamp_mono s1 s2 q1 q2 Hle Hq1 Hq2) as Hq.
  unfold normalized. rewrite Hq1, Hq2. case_decide as Hk.
  - rewrite of_Q_one. cbn [sub].
    destruct (of_Q_unit (1 - q1)) as [-> Hn1]; [lra|].
    destruct (of_Q_unit (1 - q2)) as [-> Hn2]; [lra|].
    pose proof (rne_mono (1 - q2) (1 - q1) ltac:(lra) ltac:(lra)) as Hn.
    cbn [mul].
    destruct (of_Q_unit (rne (1 - q1) * wq)) as [-> _]; [nra|].
    destruct (of_Q_unit (rne (1 - q2) * wq)) as [-> _]; [nra|].
    intros [= <-] [= <-]. split; [done|]. intros _. apply rne_mono; nra.
  - cbn [mul].
    destruct (of_Q_unit (q1 * wq)) as [-> _]; [nra|].
    destruct (of_Q_unit (q2 * wq)) as [-> _]; [nra|].
    intros [= <-] [= <-]. split; [|done]. intros _. apply rne_mono; nra.
Qed.

(** From 0.1 to 0.9 the contribution of a kind moves by more than 0.07. *)
Lemma contribution_gap (k : string) (w : float) (c1 c2 : Q) :
  weights k = Some w →
  mul (normalized k (of_Q 0.1)) w = Finite c1 →
  mul (normalized k (of_Q 0.9)) w = Finite c2 →
  (k = "hallucination" → c1 + (7 # 100) <= c2) ∧
  (k ≠ "hallucination" → c2 + (7 # 100) <= c1).
Proof.
  unfold weights. destruct (EvaluationService.weights !! k) as [q|] eqn:Hq;
    [|done].
  cbn. intros [= <-].
  apply weights_Some in Hq as [[-> ->]|[[-> ->]|[[-> ->]|[-> ->]]]];
    intros H1 H2; vm_compute in H1, H2;
    injection H1 as <-; injection H2 as <-;
    (split; intros Hk; [try done|try done]);
    apply Qle_bool_imp_le; by vm_compute.
Qed.

Lemma accumulate_item (k : string) (s : float) (a b wq c : Q) :
  weights k = Some (Finite wq) →
  mul (normalized k s) (Finite wq) = Finite c →
  accumulate (Finite a, Finite b) (k, Some s)
  = (add (Finite a) (Finite c), add (Finite b) (Finite wq)).
Proof.
  intros Hw Hc. unfold accumulate. cbn [fst snd]. by rewrite Hw, Hc.
Qed.

(** Two outcome sets that differ in the score of one weighted kind, whose
    contribution is the lower one in the first set. *)
Lemma score_two_runs (before after : list (string * option float))
    (k : string) (s_lo s_hi : float) (wq c_lo c_hi : Q) :
  NoDup (before ++ (k, Some s_lo) :: after).*1 →
  numeric (before ++ after) = true →
  weights k = Some (Finite wq) →
  rne wq == wq → (1 # 16) <= wq <= (1 # 2) →
  mul (normalized k s_lo) (Finite wq) = Finite c_lo →
  mul (normalized k s_hi) (Finite wq) = Finite c_hi →
  0 <= c_lo → c_lo <= c_hi → c_hi <= wq →
  ∃ k_lo k_hi : Z,
    _calculate_safety_score (before ++ (k, Some s_lo) :: after)
    = Ret (of_Q (k_lo # 100)) ∧
    _calculate_safety_score (before ++ (k, Some s_hi) :: after)
    = Ret (of_Q (k_hi # 100)) ∧
    (0 <= k_lo)%Z ∧ (k_lo <= k_hi)%Z ∧ (k_hi <= 10000)%Z ∧
    (c_lo + (7 # 100) <= c_hi → (k_lo < k_hi)%Z).
Proof.
  intros Hnd Hnum Hw Hrw Hwr Hlo Hhi Hc0 Hc Hcw.
  apply numeric_app in Hnum as [Hnb Hna].
  pose proof (weighted_count _ Hnd) as Hcount.
  rewrite filter_app, filter_cons, decide_True in Hcount
    by (split; by eexists).
  rewrite length_app in Hcount. cbn [length] in Hcount.
  destruct (totals_from before 0 0 0 0 Hnb) as
    (a & a' & b & E1 & E2 & A1 & _ & A3 & A4 & _ & _ & _);
    try done; try lia.
  assert (a' = a) as -> by congruence. clear E2.
  destruct (add_step a a c_lo c_hi b wq
              (0 + Z.of_nat (length (filter weighted before)))) as
    (a_lo & a_hi & b' & S1 & S2 & S3 & B1 & B2 & B3 & B4 & B5 & B6);
    try done; try lra; try lia.
  destruct (totals_from after a_lo a_hi b'
              (0 + Z.of_nat (length (filter weighted before)) + 1) Hna) as
    (a_lo' & a_hi' & b'' & F1 & F2 & C1 & C2 & C3 & C4 & C5 & C6 & C7);
    try done; try lia.
  assert (∀ s c, mul (normalized k s) (Finite wq) = Finite c →
    totals (before ++ (k, Some s) :: after)
    = foldl accumulate (add (Finite a) (Finite c), Finite b') after) as Ht.
  { intros s c Hsc. rewrite totals_start, foldl_app, E1. cbn [foldl].
    by rewrite (accumulate_item k s a b wq c), S3. }
  assert (b'' <= 4) as Hb4.
  { assert (inject_Z (0 + Z.of_nat (length (filter weighted before)) + 1
                      + Z.of_nat (length (filter weighted after)))
            <= 4); [|lra].
    change 4 with (inject_Z 4). rewrite <- Zle_Qle. lia. }
  assert ((1 # 16) <= b'') as Hb16.
  { destruct (filter weighted after) eqn:Hf.
    - destruct C5 as (_ & _ & ->); done.
    - by apply C6. }
  assert (inject_Z (Z.of_nat (length (filter weighted after))) <= 4) as Hca.
  { change 4 with (inject_Z 4). rewrite <- Zle_Qle. lia. }
  destruct (score_of_totals (before ++ (k, Some s_lo) :: after)
              (before ++ (k, Some s_hi) :: after) a_lo' a_hi' b'') as
    (k_lo & k_hi & R1 & R2 & K0 & K & K1 & Kgap); try done.
  - by destruct before.
  - by destruct before.
  - by rewrite (Ht s_lo c_lo Hlo), S1.
  - by rewrite (Ht s_hi c_hi Hhi), S2.
  - by right.
  - exists k_lo, k_hi. split_and!; try done.
    intros Hgap. apply Kgap. lra.
Qed.

End Binary64Monotonicity.
(** ** The range of the score, and the effect of one score *)

Section Binary64Claims.
Import Float Binary64.
Local Open Scope Q_scope.








(** C3 (as stated) fails: a raise of the hallucination score that the
    rounding absorbs (also one of more than 0.001, with the binary64
    rounding), a raise above 1 that the clamp absorbs, and any raise next to
    a score that is not a number leave the safety score where it was. *)
Lemma hallucination_raise_can_leave_score_unchanged :
  let score toxicity hallucination :=
    _calculate_safety_score
      [("toxicity", Some toxicity); ("pii", Some (of_Q 0.0));
       ("bias", Some (of_Q 0.0)); ("hallucination", Some hallucination)] in
  lt (of_Q 0.1) (of_Q 0.10001) = true ∧
  score (of_Q 0.2) (of_Q 0.1) = score (of_Q 0.2) (of_Q 0.10001) ∧
  (∃ q1 q2,
     of_Q 0.10149999999999716 = Finite q1 ∧
     of_Q 0.10249999999999716 = Finite q2 ∧ q1 + (1 # 1000) < q2) ∧
  score (of_Q 0.2) (of_Q 0.10149999999999716)
  = score (of_Q 0.2) (of_Q 0.10249999999999716) ∧
  lt (of_Q 1.0) (of_Q 1.5) = true ∧
  score (of_Q 0.2) (of_Q 1.0) = score (of_Q 0.2) (of_Q 1.5) ∧
  score NaN (of_Q 0.1) = Ret NaN ∧
  score NaN (of_Q 0.9) = Ret NaN.
Proof.
  intros score.
  split; [vm_compute; reflexivity|]. split; [vm_compute; reflexivity|].
  split.
  { exists (7313845794849481 # 72057594037927936),
      (7385903388887409 # 72057594037927936).
    split; [vm_compute; reflexivity|]. split; vm_compute; reflexivity. }
  split; [vm_compute; reflexivity|]. split; [vm_compute; reflexivity|].
  split; [vm_compute; reflexivity|]. split; vm_compute; reflexivity.
Qed.

(** C3 (as amended).  With the other entries fixed and no NaN among the
    scores, raising the score of the hallucination entry never lowers the
    safety score, and from 0.1 to 0.9 it raises it; raising the score of
    the entry of another kind never raises the safety score, and from 0.1
    to 0.9 it lowers it when the kind is in the weight table. *)
Theorem hallucination_score_not_inverted
    (before after : list (string * option float)) (kind : string)
    (s1 s2 : float) :
  NoDup (before ++ (kind, Some s1) :: after).*1 →
  numeric (before ++ after) = true →
  le s1 s2 = true →
  ∃ r1 r2 : Q,
    _calculate_safety_score (before ++ (kind, Some s1) :: after)
    = Ret (Finite r1) ∧
    _calculate_safety_score (before ++ (kind, Some s2) :: after)
    = Ret (Finite r2) ∧
    (kind = "hallucination" → r1 <= r2) ∧
    (kind = "hallucination" → s1 = of_Q 0.1 → s2 = of_Q 0.9 → r1 < r2) ∧
    (kind ≠ "hallucination" → r2 <= r1) ∧
    (kind ∈ ["toxicity"; "pii"; "bias"] →
     s1 = of_Q 0.1 → s2 = of_Q 0.9 → r2 < r1).
Proof.
  intros Hnd Hnum Hle. destruct (le_numbers s1 s2 Hle) as [Hs1 Hs2].
  destruct (weights kind) as [w|] eqn:Hw.
  - destruct (float_weights_finite kind w Hw) as (wq & -> & Hrw & Hwr).
    destruct (float_contribution_range kind s1 wq Hs1 Hrw Hwr)
      as (c1 & Hc1 & Hr1).
    destruct (float_contribution_range kind s2 wq Hs2 Hrw Hwr)
      as (c2 & Hc2 & Hr2).
    destruct (contribution_mono kind s1 s2 wq c1 c2 Hle Hrw Hwr Hc1 Hc2)
      as [Hup Hdown].
    destruct (decide (kind = "hallucination")) as [Hk|Hk].
    + destruct (score_two_runs before after kind s1 s2 wq c1 c2) as
        (k1 & k2 & E1 & E2 & K0 & K & K1 & Kgap);
        [exact Hnd | exact Hnum | exact Hw | exact Hrw | exact Hwr
        | exact Hc1 | exact Hc2 | lra | exact (Hup Hk) | lra |].
      destruct (two_decimals_finite k1 ltac:(lia)) as [F1 _].
      destruct (two_decimals_finite k2 ltac:(lia)) as [F2 _].
      exists (rne (k1 # 100)), (rne (k2 # 100)).
      rewrite E1, E2, F1, F2.
      split; [reflexivity|]. split; [reflexivity|].
      split; [intros _; apply two_decimals_mono; lia|].
      split; [|split].
      * intros _ Hs1' Hs2'. subst s1 s2.
        apply two_decimals_strict; [lia | | lia].
        apply Kgap.
        exact (proj1 (contribution_gap kind (Finite wq) c1 c2 Hw Hc1 Hc2) Hk).
      * intros Hne. contradiction.
      * rewrite Hk, !elem_of_cons, elem_of_nil.
        intros [Heq|[Heq|[Heq|[]]]]; discriminate Heq.
    + assert ((before ++ (kind, Some s1) :: after).*1
              = (before ++ (kind, Some s2) :: after).*1) as Hkeys.
      { by rewrite !fmap_app, !fmap_cons. }
      rewrite Hkeys in Hnd.
      destruct (score_two_runs before after kind s2 s1 wq c2 c1) as
        (k2 & k1 & E2 & E1 & K0 & K & K1 & Kgap);
        [exact Hnd | exact Hnum | exact Hw | exact Hrw | exact Hwr
        | exact Hc2 | exact Hc1 | lra | exact (Hdown Hk) | lra |].
      destruct (two_decimals_finite k1 ltac:(lia)) as [F1 _].
      destruct (two_decimals_finite k2 ltac:(lia)) as [F2 _].
      exists (rne (k1 # 100)), (rne (k2 # 100)).
      rewrite E1, E2, F1, F2.
      split; [reflexivity|]. split; [reflexivity|].
      split; [intros Heq; contradiction|].
      split; [intros Heq; contradiction|].
      split; [intros _; apply two_decimals_mono; lia|].
      intros _ Hs1' Hs2'. subst s1 s2.
      apply two_decimals_strict; [lia | | lia].
      apply Kgap.
      exact (proj2 (contribution_gap kind (Finite wq) c1 c2 Hw Hc1 Hc2) Hk).
  - assert (∀ s, totals (before ++ (kind, Some s) :: after)
                 = totals (before ++ after)) as Ht.
    { intros s. unfold totals. rewrite !foldl_app. cbn [foldl].
      rewrite accumulate_unweighted; [reflexivity|].
      intros [[w Hw'] _]. cbn [fst] in Hw'. congruence. }
    assert (numeric (before ++ (kind, Some s1) :: after) = true) as Hnum1.
    { apply numeric_app in Hnum as [Hb Ha]. apply numeric_app.
      split; [exact Hb|]. unfold numeric in *. cbn [forallb fst snd].
      rewrite Hw. exact Ha. }
    destruct (safety_score_finite _ Hnd Hnum1) as (k & Hk & E1).
    destruct (two_decimals_finite k Hk) as [F _].
    exists (rne (k # 100)), (rne (k # 100)).
    assert (_calculate_safety_score (before ++ (kind, Some s2) :: after)
            = _calculate_safety_score (before ++ (kind, Some s1) :: after))
      as ->.
    { rewrite !safety_score_nonempty by (by destruct before).
      by rewrite !Ht. }
    rewrite E1, F.
    split; [reflexivity|]. split; [reflexivity|].
    split; [intros _; lra|].
    split; [intros Heq; rewrite Heq in Hw; vm_compute in Hw; discriminate Hw|].
    split; [intros _; lra|].
    rewrite !elem_of_cons, elem_of_nil.
    intros [Heq|[Heq|[Heq|[]]]]; rewrite Heq in Hw; vm_compute in Hw;
      discriminate Hw.
Qed.

(** C3 (as amended) on an outcome set with all four kinds. *)
Lemma hallucination_score_not_inverted_witness :
  ∃ r1 r2 : Q,
    _calculate_safety_score
      [("toxicity", Some (of_Q 0.2)); ("pii", Some (of_Q 0.0));
       ("bias", Some (of_Q 0.0)); ("hallucination", Some (of_Q 0.1))]
    = Ret (Finite r1) ∧
    _calculate_safety_score
      [("toxicity", Some (of_Q 0.2)); ("pii", Some (of_Q 0.0));
       ("bias", Some (of_Q 0.0)); ("hallucination", Some (of_Q 0.9))]
    = Ret (Finite r2) ∧
    r1 < r2.
Proof.
  destruct (hallucination_score_not_inverted
              [("toxicity", Some (of_Q 0.2)); ("pii", Some (of_Q 0.0));
               ("bias", Some (of_Q 0.0))] [] "hallucination"
              (of_Q 0.1) (of_Q 0.9))
    as (r1 & r2 & E1 & E2 & _ & H & _).
  - apply (bool_decide_unpack _). by vm_compute.
  - reflexivity.
  - reflexivity.
  - exists r1, r2. split_and!; [exact E1 | exact E2 | by apply H].
Defined.

End Binary64Claims.

(** ** The dispatcher *)

Section Dispatcher.
Import EvaluationService Fixtures.

Lemma ready_spec (self : EvaluationService.t) :
  ready self = true ↔
  _initialized self = true ∧
  ∀ k evaluator, evaluators self !! k = Some evaluator →
                 BaseEvaluator._is_initialized evaluator = true.
Proof.
  unfold ready. rewrite andb_true_iff, bool_decide_eq_true.
  by rewrite map_Forall_lookup.
Qed.

Lemma evaluate_initialized (evaluator : BaseEvaluator.t) (text : string)
    (context : option string) :
  BaseEvaluator._is_initialized evaluator = true →
  BaseEvaluator.evaluate evaluator text context
  = (BaseEvaluator._evaluate evaluator text context, evaluator).
Proof. intros H. unfold BaseEvaluator.evaluate. by rewrite H. Qed.

(** With every evaluator initialized, the awaitables leave the registry as it
    is and produce, in request order, the results of the registered kinds. *)
Lemma gather_initialized (registry : gmap string BaseEvaluator.t)
    (text : string) (context : option string) (evaluations : list string) :
  (∀ k evaluator, registry !! k = Some evaluator →
                  BaseEvaluator._is_initialized evaluator = true) →
  gather registry text (make_tasks registry context evaluations)
  = (omap (awaited registry text context) evaluations, registry).
Proof.
  intros Hinit. induction evaluations as [|k rest IH]; [done|].
  cbn [make_tasks].
  change (omap (awaited registry text context) (k :: rest))
    with (match awaited registry text context k with
          | Some r => r :: omap (awaited registry text context) rest
          | None => omap (awaited registry text context) rest
          end).
  unfold awaited at 1.
  destruct (registry !! k) as [evaluator|] eqn:Hk;
    cbn [fmap option_fmap option_map].
  - rewrite decide_True by eauto.
    assert ((if decide (k = "hallucination") then (k, context) else (k, None))
            = (k, context_for k context)) as ->.
    { unfold context_for. by case_decide. }
    cbn [gather]. rewrite Hk.
    rewrite (evaluate_initialized _ _ _ (Hinit _ _ Hk)).
    by rewrite (insert_id _ _ _ Hk), IH.
  - rewrite decide_False; [done|]. by intros [? ?].
Qed.

(** On a ready service [evaluate_text] returns, and leaves the service as it
    is. *)
Lemma evaluate_text_ready (self : EvaluationService.t) (text : string)
    (context : option string) (requested : option (list string)) :
  ready self = true →
  let evaluations :=
    match requested with
    | None => (map_to_list (evaluators self)).*1
    | Some requested => requested
    end in
  let evaluation_results :=
    process_results
      (zip evaluations
         (omap (awaited (evaluators self) text context) evaluations)) in
  evaluate_text self text context requested
  = (Ret (mkResponse (_calculate_safety_score evaluation_results)
            evaluation_results text context), self).
Proof.
  intros [Hflag Hinit]%ready_spec. unfold evaluate_text. rewrite Hflag.
  rewrite (gather_initialized _ _ _ _ Hinit). by destruct self.
Qed.

(** The entries after the loop over pairs of a kind and what its own
    awaitable produced. *)
Lemma process_results_lookup (f : string → Raises Outcome)
    (evaluations : list string) (k : string) :
  process_results ((λ k, (k, f k)) <$> evaluations) !! k
  = if decide (k ∈ evaluations) then Some (entry_of k (f k)) else None.
Proof.
  unfold process_results.
  assert (∀ acc : gmap string Outcome,
    foldl (λ evaluation_results '(eval_type, result),
             match result with
             | Raise e =>
                 <[eval_type := degraded eval_type e]> evaluation_results
             | Ret outcome => <[eval_type := outcome]> evaluation_results
             end) acc ((λ k, (k, f k)) <$> evaluations) !! k
    = if decide (k ∈ evaluations) then Some (entry_of k (f k))
      else acc !! k) as H.
  { induction evaluations as [|k' rest IH]; intros acc.
    - cbn. rewrite decide_False; [done|]. by apply not_elem_of_nil.
    - cbn [fmap list_fmap foldl]. rewrite IH.
      destruct (decide (k ∈ rest)) as [Hin|Hnin].
      + rewrite decide_True; [done|]. by apply list_elem_of_further.
      + destruct (decide (k = k')) as [->|Hne].
        * rewrite decide_True by apply list_elem_of_here.
          unfold entry_of. destruct (f k'); by rewrite lookup_insert_eq.
        * rewrite decide_False by (by rewrite elem_of_cons; intros [?|?]).
          destruct (f k'); by rewrite lookup_insert_ne. }
  rewrite H. case_decide; [done|]. apply lookup_empty.
Qed.

(** When every requested kind is registered, each awaitable is paired with
    its own kind. *)
Lemma zip_awaited_registered (registry : gmap string BaseEvaluator.t)
    (text : string) (context : option string) (evaluations : list string)
    (f : string → Raises Outcome) :
  (∀ k, k ∈ evaluations → awaited registry text context k = Some (f k)) →
  zip evaluations (omap (awaited registry text context) evaluations)
  = (λ k, (k, f k)) <$> evaluations.
Proof.
  induction evaluations as [|k rest IH]; intros Hreg; [done|].
  change (omap (awaited registry text context) (k :: rest))
    with (match awaited registry text context k with
          | Some r => r :: omap (awaited registry text context) rest
          | None => omap (awaited registry text context) rest
          end).
  rewrite (Hreg k) by apply list_elem_of_here.
  cbn. f_equal. apply IH. intros k' Hk'. apply Hreg.
  by apply list_elem_of_further.
Qed.

End Dispatcher.

Section DispatcherClaims.
Import EvaluationService Fixtures.

Lemma awaited_registered (registry : gmap string BaseEvaluator.t)
    (text : string) (context : option string) (k : string) :
  is_Some (registry !! k) →
  awaited registry text context k
  = Some (default (Raise (Exception "")) (awaited registry text context k)).
Proof. intros [evaluator Hk]. unfold awaited. by rewrite Hk. Qed.

(** The entries of the response when every requested kind is registered. *)
Lemma evaluations_registered (registry : gmap string BaseEvaluator.t)
    (text : string) (context : option string) (evaluations : list string)
    (k : string) :
  (∀ k, k ∈ evaluations → is_Some (registry !! k)) →
  process_results
    (zip evaluations (omap (awaited registry text context) evaluations)) !! k
  = if decide (k ∈ evaluations)
    then entry_of k <$> awaited registry text context k
    else None.
Proof.
  intros Hreg.
  rewrite (zip_awaited_registered _ _ _ _
             (λ k, default (Raise (Exception ""))
                     (awaited registry text context k)))
    by (intros ??; by apply awaited_registered, Hreg).
  rewrite process_results_lookup. case_decide as Hk; [|done].
  by rewrite (awaited_registered _ _ _ _ (Hreg _ Hk)).
Qed.

(** C1 at the failing input: a request for a kind that is not registered
    followed by one that is.  The result of the registered kind is stored
    under the unregistered one and the registered kind has no entry. *)
Theorem unregistered_kind_shifts_results (self : EvaluationService.t)
    (text : string) (context : option string) (unknown known : string)
    (evaluator : BaseEvaluator.t) :
  ready self = true →
  evaluators self !! unknown = None →
  evaluators self !! known = Some evaluator →
  evaluations_of (evaluate_text self text context (Some [unknown; known]))
  = Some {[unknown :=
             entry_of unknown
               (BaseEvaluator._evaluate evaluator text
                  (context_for known context))]}.
Proof.
  intros Hready Hunknown Hknown.
  rewrite (evaluate_text_ready _ _ _ (Some [unknown; known]) Hready).
  unfold evaluations_of. cbn [fst evaluations]. f_equal.
  change (omap ?f [unknown; known])
    with (match f unknown with
          | Some r => r :: match f known with Some r' => [r'] | None => [] end
          | None => match f known with Some r' => [r'] | None => [] end
          end).
  unfold awaited. rewrite Hunknown, Hknown. cbn.
  unfold entry_of. by destruct (BaseEvaluator._evaluate _ _ _).
Qed.

(** C1 at the failing input, on a concrete service: requesting ["sentiment"]
    and ["toxicity"] gives one entry, keyed ["sentiment"], that holds the
    toxicity result. *)
Lemma unregistered_kind_shifts_results_witness :
  evaluations_of
    (evaluate_text (warm service) "some text" None
       (Some ["sentiment"; "toxicity"]))
  = Some {["sentiment" := scored "toxicity" 0.2%Q]}.
Proof.
  exact (unregistered_kind_shifts_results (warm service) "some text" None
           "sentiment" "toxicity" (BaseEvaluator.set_initialized
              (BaseEvaluator.count_attempt (scoring "toxicity" 0.2%Q)))
           eq_refl eq_refl eq_refl).
Defined.

(** C5 (as stated) fails: an exception without a message, such as
    [RuntimeError()], has the empty string as its [str], and that is what is
    stored under ["error"]. *)
Lemma fault_without_message_gives_empty_error :
  evaluations_of
    (evaluate_text (warm (service_bias_faults "")) "some text" None
       (Some ["toxicity"; "bias"]))
  = Some (<["bias" := mkOutcome (Some 0.0%Q) (Some "") "bias" []]>
            {["toxicity" := scored "toxicity" 0.2%Q]}).
Proof. vm_compute. reflexivity. Qed.

(** C5 (as amended).  On a ready service and a request of registered kinds,
    [evaluate_text] returns a response, whatever the awaitables do.  Its
    entries are exactly the requested kinds.  A kind whose awaitable returned
    holds what it returned; a kind whose awaitable raised holds score 0.0,
    the [str] of the exception as error (empty when the exception has no
    message) and the kind as evaluation type. *)
Theorem evaluate_text_isolates_faults (self : EvaluationService.t)
    (text : string) (context : option string) (requested : list string) :
  ready self = true →
  (∀ k, k ∈ requested → is_Some (evaluators self !! k)) →
  ∃ response,
    evaluate_text self text context (Some requested) = (Ret response, self) ∧
    (∀ k, is_Some (evaluations response !! k) ↔ k ∈ requested) ∧
    (∀ k evaluator,
       k ∈ requested → evaluators self !! k = Some evaluator →
       match BaseEvaluator._evaluate evaluator text (context_for k context)
       with
       | Ret outcome => evaluations response !! k = Some outcome
       | Raise e =>
           evaluations response !! k
           = Some (mkOutcome (Some 0.0%Q) (Some (str e)) k [])
       end).
Proof.
  intros Hready Hreg. eexists. split.
  { apply (evaluate_text_ready _ _ _ (Some requested) Hready). }
  cbn [evaluations]. split.
  - intros k. rewrite evaluations_registered by done.
    case_decide as Hk.
    + rewrite (awaited_registered _ _ _ _ (Hreg _ Hk)). split; [done|].
      intros _. by eexists.
    + split; [by intros [? ?]|done].
  - intros k evaluator Hk Hev. rewrite evaluations_registered by done.
    rewrite decide_True by done. unfold awaited. rewrite Hev.
    cbn. by destruct (BaseEvaluator._evaluate _ _ _).
Qed.

(** C5 (as amended) on a concrete service whose bias evaluator raises. *)
Lemma evaluate_text_isolates_faults_witness :
  ∃ response,
    evaluate_text (warm (service_bias_faults "CUDA out of memory"))
      "some text" None (Some ["toxicity"; "bias"; "pii"])
    = (Ret response, warm (service_bias_faults "CUDA out of memory")) ∧
    evaluations response !! "bias"
    = Some (mkOutcome (Some 0.0%Q) (Some "CUDA out of memory") "bias" []) ∧
    evaluations response !! "toxicity" = Some (scored "toxicity" 0.2%Q) ∧
    evaluations response !! "pii" = Some (scored "pii" 0.0%Q).
Proof.
  assert (ready (warm (service_bias_faults "CUDA out of memory")) = true)
    as Hready by (by vm_compute).
  destruct (evaluate_text_isolates_faults
              (warm (service_bias_faults "CUDA out of memory"))
              "some text" None ["toxicity"; "bias"; "pii"] Hready)
    as (response & Hrun & _ & Hentries).
  { intros k Hk. set_unfold in Hk.
    destruct Hk as [->|[->|[->|[]]]]; by eexists. }
  exists response. split; [exact Hrun|]. split_and!.
  - exact (Hentries "bias" _ ltac:(set_unfold; tauto) eq_refl).
  - exact (Hentries "toxicity" _ ltac:(set_unfold; tauto) eq_refl).
  - exact (Hentries "pii" _ ltac:(set_unfold; tauto) eq_refl).
Defined.

Lemma registry_keys (registry : gmap string BaseEvaluator.t) (k : string) :
  k ∈ (map_to_list registry).*1 ↔ is_Some (registry !! k).
Proof.
  rewrite list_elem_of_fmap. split.
  - intros [[k' evaluator] [-> Hin]]. apply elem_of_map_to_list in Hin.
    by eexists.
  - intros [evaluator Hk]. exists (k, evaluator). split; [done|].
    by apply elem_of_map_to_list.
Qed.

(** C7 (as stated) fails: with the empty list nothing is evaluated, while
    with no list all four registered kinds are. *)
Lemma empty_request_evaluates_nothing :
  evaluations_of
    (evaluate_text (warm service) "some text" None (Some [])) = Some ∅ ∧
  dom <$> evaluations_of
            (evaluate_text (warm service) "some text" None None)
  = Some ({["toxicity"; "pii"; "bias"; "hallucination"]} : gset string).
Proof. split; vm_compute; reflexivity. Qed.

(** C7 (as amended).  On a ready service, a request without a list of kinds
    is answered with one entry for every registered kind and no other, each
    holding what the evaluator of its kind produced; a request with the empty
    list is answered with no entry at all and the safety score 0.0. *)
Theorem absent_request_defaults_to_registry (self : EvaluationService.t)
    (text : string) (context : option string) :
  ready self = true →
  (∃ response,
     evaluate_text self text context None = (Ret response, self) ∧
     (∀ k, is_Some (evaluations response !! k)
           ↔ is_Some (evaluators self !! k)) ∧
     (∀ k, evaluations response !! k
           = entry_of k <$> awaited (evaluators self) text context k)) ∧
  evaluate_text self text context (Some [])
  = (Ret (mkResponse 0.0%Q ∅ text context), self).
Proof.
  intros Hready. split.
  - eexists. split; [apply (evaluate_text_ready _ _ _ None Hready)|].
    cbn [evaluations].
    assert (∀ k, process_results
                   (zip (map_to_list (evaluators self)).*1
                      (omap (awaited (evaluators self) text context)
                         (map_to_list (evaluators self)).*1)) !! k
                 = entry_of k <$> awaited (evaluators self) text context k)
      as Hentries.
    { intros k. rewrite evaluations_registered
        by (intros ??; by apply registry_keys).
      case_decide as Hk; [done|]. rewrite registry_keys in Hk.
      unfold awaited. destruct (evaluators self !! k); [|done].
      exfalso. apply Hk. by eexists. }
    split; [|done]. intros k. rewrite Hentries. unfold awaited.
    rewrite !fmap_is_Some. done.
  - apply (evaluate_text_ready _ _ _ (Some []) Hready).
Qed.

(** C7 (as amended) on a concrete service. *)
Lemma absent_request_defaults_to_registry_witness :
  (∃ response,
     evaluate_text (warm service) "Studies show it is always so" None None
     = (Ret response, warm service) ∧
     evaluations response !! "toxicity" = Some (scored "toxicity" 0.2%Q) ∧
     score <$> evaluations response !! "hallucination"
     = Some (Some (Qmin 1.0 (0.0 + 0.3 + 0.2))%Q)) ∧
  evaluate_text (warm service) "Studies show it is always so" None (Some [])
  = (Ret (mkResponse 0.0%Q ∅ "Studies show it is always so" None),
     warm service).
Proof.
  assert (ready (warm service) = true) as Hready by (by vm_compute).
  destruct (absent_request_defaults_to_registry (warm service)
              "Studies show it is always so" None Hready)
    as [(response & Hrun & _ & Hentries) Hempty].
  split; [|exact Hempty].
  exists response. split; [exact Hrun|]. rewrite !Hentries. split; by vm_compute.
Defined.

End DispatcherClaims.

(** ** The life cycle of an evaluator *)

Section Lifecycle.
Import BaseEvaluator Fixtures.

Lemma initialize_initialized (self : BaseEvaluator.t) :
  _is_initialized self = true → initialize self = (Ret (), self).
Proof. intros H. unfold initialize. by rewrite H. Qed.

Lemma initialize_times_initialized (n : nat) (self : BaseEvaluator.t) :
  _is_initialized self = true →
  initialize_times n self = (replicate n (Ret ()), self).
Proof.
  intros H. induction n as [|n IH]; [done|].
  cbn [initialize_times replicate].
  by rewrite (initialize_initialized _ H), IH.
Qed.

Lemma initialize_returns (self self' : BaseEvaluator.t) :
  initialize self = (Ret (), self') → _is_initialized self' = true.
Proof.
  unfold initialize. destruct (_is_initialized self) eqn:Hflag.
  - by intros [= <-].
  - destruct (_load_model self (load_attempts self)); by intros [= <-].
Qed.

(** C8.  Once [initialize] has returned, the flag is set and any number of
    further calls return without calling [_load_model] and leave the object
    as it is.  When the flag is clear and the load raises, [initialize]
    raises the same exception and leaves the flag clear; the next call calls
    [_load_model] again and succeeds or fails with that new attempt. *)
Theorem initialize_loads_once_and_retries_after_failure
    (self : BaseEvaluator.t) (n : nat) :
  (∀ self', initialize self = (Ret (), self') →
     _is_initialized self' = true ∧
     initialize_times n self' = (replicate n (Ret ()), self') ∧
     load_attempts (initialize_times n self').2 = load_attempts self') ∧
  (∀ e, _is_initialized self = false →
        _load_model self (load_attempts self) = Raise e →
     ∃ self',
       initialize self = (Raise e, self') ∧
       _is_initialized self' = false ∧
       load_attempts self' = S (load_attempts self) ∧
       load_attempts (initialize self').2 = S (S (load_attempts self)) ∧
       match _load_model self (S (load_attempts self)) with
       | Ret _ =>
           (initialize self').1 = Ret () ∧
           _is_initialized (initialize self').2 = true
       | Raise e' =>
           (initialize self').1 = Raise e' ∧
           _is_initialized (initialize self').2 = false
       end).
Proof.
  split.
  - intros self' Hrun. pose proof (initialize_returns _ _ Hrun) as Hflag.
    rewrite (initialize_times_initialized _ _ Hflag). done.
  - intros e Hflag Hload. exists (count_attempt self).
    unfold initialize. rewrite Hflag, Hload. cbn.
    rewrite Hflag.
    destruct (_load_model self (S (load_attempts self))); done.
Qed.

(** C8 on two evaluators: one whose load succeeds, called four times, and
    one whose first load fails and whose second succeeds. *)
Lemma initialize_loads_once_and_retries_after_failure_witness :
  load_attempts
    (initialize_times 3 (initialize (scoring "toxicity" 0.2%Q)).2).2 = 1 ∧
  ∃ self',
    initialize (BaseEvaluator.__init__ loads_second_time
                  (λ _ _, Raise (Exception "unused")))
    = (Raise (Exception "connection reset"), self') ∧
    _is_initialized self' = false ∧
    (initialize self').1 = Ret () ∧
    load_attempts (initialize self').2 = 2.
Proof.
  split.
  - destruct (initialize_loads_once_and_retries_after_failure
                (scoring "toxicity" 0.2%Q) 3) as [H _].
    exact (proj2 (proj2 (H _ eq_refl))).
  - destruct (initialize_loads_once_and_retries_after_failure
                (BaseEvaluator.__init__ loads_second_time
                   (λ _ _, Raise (Exception "unused"))) 0) as [_ H].
    destruct (H _ eq_refl eq_refl) as (self' & Hrun & Hflag & _ & Hn & Hnext).
    exists self'. cbn in Hnext. destruct Hnext as [Hret _].
    by split_and!.
Defined.

End Lifecycle.

(** ** Callers of [initialize] that overlap *)

Section SingleFlight.
Import BaseEvaluator Interleaving Fixtures.

Lemma loads_started_insert (l : list caller) (i : nat) (x y : caller) :
  l !! i = Some x →
  loads_started (<[i := y]> l) + (if has_loaded x then 1 else 0)
  = loads_started l + (if has_loaded y then 1 else 0).
Proof.
  unfold loads_started. revert i.
  induction l as [|z l IH]; intros i Hi; [done|].
  destruct i as [|i].
  - injection Hi as ->. change (<[0 := y]> (x :: l)) with (y :: l).
    rewrite !filter_cons.
    destruct (has_loaded x), (has_loaded y); repeat case_decide;
      try done; cbn [length]; lia.
  - change (<[S i := y]> (z :: l)) with (z :: <[i := y]> l).
    rewrite !filter_cons. specialize (IH i Hi).
    case_decide; cbn [length];
      destruct (has_loaded x), (has_loaded y); lia.
Qed.

Lemma step_attempts_accounted (self : BaseEvaluator.t) (base : nat)
    (c : config) (i : nat) :
  attempts_accounted self base c → attempts_accounted self base (step c i).
Proof.
  intros (Hload & Hcount & Hown). unfold step.
  destruct (callers c !! i) as [[|a|a r]|] eqn:Hi; [| |done|done].
  - destruct (_is_initialized (shared c)).
    + split_and!; cbn [shared callers]; [done| |].
      * pose proof (loads_started_insert _ _ _ (Finished None (Ret ())) Hi)
          as H. cbn in H. lia.
      * intros j a r Hj. destruct (decide (i = j)) as [<-|Hne].
        -- rewrite list_lookup_insert_eq in Hj by by eapply lookup_lt_Some.
           done.
        -- rewrite list_lookup_insert_ne in Hj by done. by eapply Hown.
    + split_and!; cbn [shared callers]; [done| |].
      * pose proof (loads_started_insert _ _ _
                      (Loading (load_attempts (shared c))) Hi) as H.
        cbn in H. cbn. lia.
      * intros j a r Hj. destruct (decide (i = j)) as [<-|Hne].
        -- rewrite list_lookup_insert_eq in Hj by by eapply lookup_lt_Some.
           done.
        -- rewrite list_lookup_insert_ne in Hj by done. by eapply Hown.
  - destruct (_load_model (shared c) a) as [[]|e] eqn:Ha.
    + split_and!; cbn [shared callers]; [done| |].
      * pose proof (loads_started_insert _ _ _
                      (Finished (Some a) (Ret ())) Hi) as H.
        cbn in H. cbn. lia.
      * intros j a' r Hj. destruct (decide (i = j)) as [<-|Hne].
        -- rewrite list_lookup_insert_eq in Hj by by eapply lookup_lt_Some.
           injection Hj as <- <-. unfold load_outcome.
           by rewrite <- Hload, Ha.
        -- rewrite list_lookup_insert_ne in Hj by done. by eapply Hown.
    + split_and!; cbn [shared callers]; [done| |].
      * pose proof (loads_started_insert _ _ _
                      (Finished (Some a) (Raise e)) Hi) as H.
        cbn in H. lia.
      * intros j a' r Hj. destruct (decide (i = j)) as [<-|Hne].
        -- rewrite list_lookup_insert_eq in Hj by by eapply lookup_lt_Some.
           injection Hj as <- <-. unfold load_outcome.
           by rewrite <- Hload, Ha.
        -- rewrite list_lookup_insert_ne in Hj by done. by eapply Hown.
Qed.

Lemma run_attempts_accounted (self : BaseEvaluator.t) (base : nat)
    (schedule : list nat) (c : config) :
  attempts_accounted self base c →
  attempts_accounted self base (run schedule c).
Proof.
  revert c. induction schedule as [|i rest IH]; intros c Hc; [done|].
  apply IH. by apply step_attempts_accounted.
Qed.

Lemma loads_started_pending (n : nat) : loads_started (replicate n Pending) = 0.
Proof.
  unfold loads_started. induction n as [|n IH]; [done|].
  cbn [replicate]. rewrite filter_cons. by case_decide.
Qed.

Lemma step_settled (attempts : nat) (c : config) (i : nat) :
  settled attempts c → settled attempts (step c i).
Proof.
  intros (Hflag & Hcount & Hcallers). unfold step.
  destruct (callers c !! i) as [[|a|a r]|] eqn:Hi; [| |done|done].
  - rewrite Hflag. split_and!; cbn [shared callers]; [done|done|].
    intros j k Hj. destruct (decide (i = j)) as [<-|Hne].
    + rewrite list_lookup_insert_eq in Hj by by eapply lookup_lt_Some.
      injection Hj as <-. right. by eexists.
    + rewrite list_lookup_insert_ne in Hj by done. by eapply Hcallers.
  - destruct (Hcallers _ _ Hi) as [?|[? ?]]; done.
Qed.

Lemma run_settled (attempts : nat) (schedule : list nat) (c : config) :
  settled attempts c → settled attempts (run schedule c).
Proof.
  revert c. induction schedule as [|i rest IH]; intros c Hc; [done|].
  apply IH. by apply step_settled.
Qed.

(** C9 (as stated) fails.  Two callers on a cold evaluator whose load
    succeeds, both resumed before either load ends: two load attempts, each
    caller finishing its own.  Two callers on a cold evaluator whose load
    fails, even one after the other: two load attempts again. *)
Lemma overlapping_callers_each_load :
  run [0; 1; 0; 1] (start (scoring "toxicity" 0.2%Q) 2)
  = mkConfig
      (BaseEvaluator.mk loads_fine
         (BaseEvaluator._evaluate (scoring "toxicity" 0.2%Q)) true 2)
      [Finished (Some 0) (Ret ()); Finished (Some 1) (Ret ())] ∧
  load_attempts (shared (run [0; 0; 1; 1] (start unloadable 2))) = 2.
Proof. split; reflexivity. Qed.

(** C9 (as amended).  [initialize] has no guard against overlapping callers.
    Among [n] callers on a cold evaluator, under every schedule, the number
    of load attempts is the number of callers that found the flag clear, and
    each of them finishes with the outcome of its own attempt.  There is
    exactly one attempt when the first caller resumed runs both its steps, and
    its load succeeds, before any other caller runs; every caller that has
    finished has then returned normally. *)
Theorem initialize_is_not_single_flight (self : BaseEvaluator.t) (n : nat)
    (schedule : list nat) :
  _is_initialized self = false →
  load_attempts (shared (run schedule (start self n)))
  = load_attempts self + loads_started (callers (run schedule (start self n)))
  ∧ (∀ j a r,
       callers (run schedule (start self n)) !! j = Some (Finished (Some a) r)
       → r = load_outcome self a)
  ∧ (∀ i rest,
       i < n → schedule = i :: i :: rest →
       _load_model self (load_attempts self) = Ret () →
       load_attempts (shared (run schedule (start self n)))
       = S (load_attempts self) ∧
       ∀ j k, callers (run schedule (start self n)) !! j = Some k →
              k = Pending ∨ ∃ a, k = Finished a (Ret ())).
Proof.
  intros Hcold.
  assert (attempts_accounted self (load_attempts self) (start self n))
    as Hstart.
  { split_and!; cbn [start shared callers]; [done| |].
    - rewrite loads_started_pending. lia.
    - intros j a r [[=] _]%lookup_replicate. }
  destruct (run_attempts_accounted _ _ schedule _ Hstart) as (_ & H1 & H2).
  split; [exact H1|]. split; [exact H2|].
  intros i rest Hi -> Hload.
  assert (settled (S (load_attempts self)) (step (step (start self n) i) i))
    as Hsettled.
  { unfold step at 2. cbn [start shared callers].
    rewrite (lookup_replicate_2 _ _ _ Hi), Hcold.
    unfold step. cbn [shared callers].
    rewrite list_lookup_insert_eq by by rewrite length_replicate.
    cbn [count_attempt _load_model]. rewrite Hload.
    split_and!; [done|done|]. cbn [callers]. intros j k Hj.
    rewrite list_insert_insert_eq in Hj.
    destruct (decide (i = j)) as [<-|Hne].
    - rewrite list_lookup_insert_eq in Hj by by rewrite length_replicate.
      injection Hj as <-. right. by eexists.
    - rewrite list_lookup_insert_ne in Hj by done.
      apply lookup_replicate in Hj as [-> _]. by left. }
  destruct (run_settled _ rest _ Hsettled) as (_ & Hcount & Hcallers).
  split; [exact Hcount | exact Hcallers].
Qed.

(** C9 (as amended) on three callers: the first completes its load before
    the others run, and only it loads. *)
Lemma initialize_is_not_single_flight_witness :
  load_attempts
    (shared (run [1; 1; 0; 2; 0] (start (scoring "toxicity" 0.2%Q) 3))) = 1 ∧
  load_attempts
    (shared (run [1; 0; 2; 0; 1; 2] (start (scoring "toxicity" 0.2%Q) 3)))
  = 0 + loads_started
          (callers (run [1; 0; 2; 0; 1; 2]
                      (start (scoring "toxicity" 0.2%Q) 3))).
Proof.
  split.
  - destruct (initialize_is_not_single_flight (scoring "toxicity" 0.2%Q) 3
                [1; 1; 0; 2; 0] eq_refl) as (_ & _ & H).
    exact (proj1 (H 1 [0; 2; 0] ltac:(lia) eq_refl eq_refl)).
  - exact (proj1 (initialize_is_not_single_flight
                    (scoring "toxicity" 0.2%Q) 3 [1; 0; 2; 0; 1; 2] eq_refl)).
Defined.

End SingleFlight.

(** ** The hallucination heuristics *)

Section Heuristics.
Import HallucinationEvaluator Fixtures.
Local Open Scope Q_scope.

(** C10.  Without a context the score is the sum of 0.3 for vague language,
    0.2 for an unsourced percentage and 0.2 for an extreme claim, capped at
    1.0, hence at most 0.7.  The result is flagged as hallucinated exactly
    when the score exceeds 0.5, which is exactly when all three conditions
    hold.  This is what [evaluate] returns for a missing or empty context,
    whatever the model. *)
Theorem score_without_context_is_capped_sum (text : string) :
  ∃ s,
    score (_evaluate_without_context text) = Some s ∧
    s == Qmin 1 ((if vague_language text then 0.3 else 0)
                 + (if unsourced_statistic text then 0.2 else 0)
                 + (if extreme_claim text then 0.2 else 0)) ∧
    s <= 0.7 ∧
    detail "is_hallucinated" (details (_evaluate_without_context text))
    = Some (VBool (exceeds_half s)) ∧
    (exceeds_half s = true ↔ 0.5 < s) ∧
    (exceeds_half s = true ↔
     vague_language text = true ∧ unsourced_statistic text = true ∧
     extreme_claim text = true) ∧
    ∀ model,
      evaluate_body model text None = Ret (_evaluate_without_context text) ∧
      evaluate_body model text (Some "")
      = Ret (_evaluate_without_context text).
Proof.
  assert (∀ model,
    evaluate_body model text None = Ret (_evaluate_without_context text) ∧
    evaluate_body model text (Some "")
    = Ret (_evaluate_without_context text)) as Hbody by done.
  revert Hbody. generalize (evaluate_body). intros body Hbody.
  unfold _evaluate_without_context, heuristics in *.
  destruct (vague_language text), (unsourced_statistic text),
    (extreme_claim text); cbn [score details];
    (eexists; split; [reflexivity|]);
    (split; [vm_compute; reflexivity|]);
    (split; [vm_compute; discriminate|]);
    (split; [reflexivity|]);
    (split; [vm_compute; intuition congruence|]);
    (split; [vm_compute; intuition congruence|exact Hbody]).
Qed.

End Heuristics.

(** * Further properties of the service *)

(** ** [EvaluationService.initialize] *)

Section ServiceInitialize.
Import EvaluationService Fixtures.

Lemma first_exception_None {A} (results : list (Raises A)) :
  first_exception results = None ↔ ∀ r, r ∈ results → ∃ a, r = Ret a.
Proof.
  induction results as [|[a|e] rest IH]; cbn [first_exception].
  - split; [|done]. intros _ r Hr. by apply elem_of_nil in Hr.
  - rewrite IH. split.
    + intros H r [->|Hr]%elem_of_cons; [by eexists | by apply H].
    + intros H r Hr. apply H. by apply list_elem_of_further.
  - split; [done|]. intros H.
    destruct (H (Raise e) (list_elem_of_here _ _)) as [a [=]].
Qed.

Lemma first_exception_Some {A} (results : list (Raises A)) (e : PyExn) :
  first_exception results = Some e → Raise e ∈ results.
Proof.
  induction results as [|[a|e'] rest IH]; cbn [first_exception]; [done| |].
  - intros H. by apply list_elem_of_further, IH.
  - intros [= ->]. apply list_elem_of_here.
Qed.

(** The results gathered by [initialize] are those of the registered
    evaluators. *)
Lemma initialize_results (registry : gmap string BaseEvaluator.t)
    (r : Raises unit) :
  r ∈ (map_to_list (BaseEvaluator.initialize <$> registry)).*2.*1 ↔
  ∃ k evaluator,
    registry !! k = Some evaluator ∧ r = (BaseEvaluator.initialize evaluator).1.
Proof.
  rewrite list_elem_of_fmap. split.
  - intros [[r' ev'] [-> Hin]]. apply list_elem_of_fmap in Hin
      as [[k [r'' ev'']] [[= <- <-] Hin]].
    apply elem_of_map_to_list, lookup_fmap_Some in Hin
      as (evaluator & Hrun & Hk).
    exists k, evaluator. by rewrite Hrun.
  - intros (k & evaluator & Hk & ->).
    exists (BaseEvaluator.initialize evaluator). split; [done|].
    apply list_elem_of_fmap. exists (k, BaseEvaluator.initialize evaluator).
    split; [done|]. apply elem_of_map_to_list. by rewrite lookup_fmap, Hk.
Qed.

(** X1.  When the service is not yet initialized and the next load of every
    evaluator that is not yet initialized succeeds, [initialize] returns and
    leaves the service ready; it has called [_load_model] once on every
    evaluator that was not initialized and not at all on the others.  A first
    [evaluate_text] is then [initialize] followed by [evaluate_text] on the
    ready service. *)
Theorem initialize_makes_ready (self : EvaluationService.t) :
  _initialized self = false →
  (∀ k evaluator,
     evaluators self !! k = Some evaluator →
     BaseEvaluator._is_initialized evaluator = true ∨
     ∃ u, BaseEvaluator._load_model evaluator
            (BaseEvaluator.load_attempts evaluator) = Ret u) →
  ∃ self',
    initialize self = (Ret (), self') ∧
    ready self' = true ∧
    (∀ k evaluator,
       evaluators self !! k = Some evaluator →
       ∃ evaluator',
         evaluators self' !! k = Some evaluator' ∧
         BaseEvaluator.load_attempts evaluator'
         = if BaseEvaluator._is_initialized evaluator
           then BaseEvaluator.load_attempts evaluator
           else S (BaseEvaluator.load_attempts evaluator)) ∧
    ∀ text context requested,
      evaluate_text self text context requested
      = evaluate_text self' text context requested.
Proof.
  intros Hflag Hloads.
  assert (∀ k evaluator, evaluators self !! k = Some evaluator →
            (BaseEvaluator.initialize evaluator).1 = Ret () ∧
            BaseEvaluator._is_initialized
              (BaseEvaluator.initialize evaluator).2 = true ∧
            BaseEvaluator.load_attempts (BaseEvaluator.initialize evaluator).2
            = if BaseEvaluator._is_initialized evaluator
              then BaseEvaluator.load_attempts evaluator
              else S (BaseEvaluator.load_attempts evaluator)) as Heach.
  { intros k evaluator Hk. unfold BaseEvaluator.initialize.
    destruct (Hloads _ _ Hk) as [Hinit|[u Hload]].
    - by rewrite Hinit.
    - destruct (BaseEvaluator._is_initialized evaluator) eqn:Hinit; [done|].
      by rewrite Hload. }
  assert (first_exception
            (map_to_list (BaseEvaluator.initialize <$> evaluators self)).*2.*1
          = None) as Hnone.
  { apply first_exception_None. intros r (k & evaluator & Hk & ->)%initialize_results.
    exists (). by apply (Heach k). }
  assert (initialize self
          = (Ret (), mk (snd <$> (BaseEvaluator.initialize <$> evaluators self))
                       true)) as Hrun.
  { unfold initialize. by rewrite Hflag, Hnone. }
  assert (ready (mk (snd <$> (BaseEvaluator.initialize <$> evaluators self))
                   true) = true) as Hready.
  { apply ready_spec. split; [done|]. cbn [evaluators].
    intros k evaluator'. rewrite <- map_fmap_compose, lookup_fmap_Some.
    intros (evaluator & <- & Hk). by apply (Heach k). }
  eexists. split; [exact Hrun|]. split; [exact Hready|]. split.
  - intros k evaluator Hk. eexists. cbn [evaluators].
    rewrite <- map_fmap_compose, lookup_fmap, Hk. split; [done|].
    by apply (Heach k).
  - intros text context requested.
    rewrite (evaluate_text_ready _ _ _ _ Hready).
    unfold evaluate_text at 1. rewrite Hflag, Hrun.
    change (_initialized (mk ?r true)) with true.
    apply ready_spec in Hready as [_ Hinit].
    by rewrite (gather_initialized _ _ _ _ Hinit).
Qed.

(** X1 on the service as constructed. *)
Lemma initialize_makes_ready_witness :
  ∃ self',
    initialize service = (Ret (), self') ∧ ready self' = true ∧
    BaseEvaluator.load_attempts <$> evaluators self' !! "pii" = Some 1.
Proof.
  destruct (initialize_makes_ready service)
    as (self' & Hrun & Hready & Hloads & _); [by vm_compute| |].
  { intros k evaluator Hk. right. exists ().
    unfold service, __init__ in Hk. cbn [evaluators] in Hk.
    rewrite !lookup_insert in Hk.
    repeat case_decide; by simplify_eq. }
  exists self'. split; [exact Hrun|]. split; [exact Hready|].
  destruct (Hloads "pii" (scoring "pii" 0.0%Q)) as (ev' & -> & Hn);
    [by vm_compute|].
  cbn. by rewrite Hn.
Defined.

(** A load that raises makes [initialize] raise. *)
Lemma initialize_raises (self : EvaluationService.t) (k : string)
    (evaluator : BaseEvaluator.t) (e : PyExn) :
  _initialized self = false →
  evaluators self !! k = Some evaluator →
  BaseEvaluator._is_initialized evaluator = false →
  BaseEvaluator._load_model evaluator (BaseEvaluator.load_attempts evaluator)
  = Raise e →
  ∃ e',
    initialize self
    = (Raise e',
       mk ((λ ev, (BaseEvaluator.initialize ev).2) <$> evaluators self)
          false) ∧
    ∃ k' evaluator',
      evaluators self !! k' = Some evaluator' ∧
      (BaseEvaluator.initialize evaluator').1 = Raise e'.
Proof.
  intros Hflag Hk Hcold Hload.
  destruct (first_exception
              (map_to_list (BaseEvaluator.initialize <$> evaluators self)).*2.*1)
    as [e'|] eqn:Hfirst.
  - exists e'. unfold initialize. rewrite Hflag, Hfirst. split.
    + by rewrite <- map_fmap_compose.
    + apply first_exception_Some, initialize_results in Hfirst
        as (k' & evaluator' & Hk' & Hr). by exists k', evaluator'.
  - exfalso.
    destruct (proj1 (first_exception_None _) Hfirst
                (BaseEvaluator.initialize evaluator).1) as [u Hu].
    { apply initialize_results. by exists k, evaluator. }
    unfold BaseEvaluator.initialize in Hu. by rewrite Hcold, Hload in Hu.
Qed.

(** X2.  When the service is not yet initialized and the load of some
    evaluator raises, [evaluate_text] raises: the exception of a failed load
    is not turned into an entry of the response.  The flag of the service
    stays clear, so the next request initializes again, and every evaluator
    is left as its own [initialize] left it. *)
Theorem failed_load_escapes_evaluate_text (self : EvaluationService.t)
    (text : string) (context : option string)
    (requested : option (list string)) (k : string)
    (evaluator : BaseEvaluator.t) (e : PyExn) :
  _initialized self = false →
  evaluators self !! k = Some evaluator →
  BaseEvaluator._is_initialized evaluator = false →
  BaseEvaluator._load_model evaluator (BaseEvaluator.load_attempts evaluator)
  = Raise e →
  ∃ e' self',
    evaluate_text self text context requested = (Raise e', self') ∧
    _initialized self' = false ∧
    evaluators self'
    = (λ ev, (BaseEvaluator.initialize ev).2) <$> evaluators self ∧
    ∃ k' evaluator',
      evaluators self !! k' = Some evaluator' ∧
      (BaseEvaluator.initialize evaluator').1 = Raise e'.
Proof.
  intros Hflag Hk Hcold Hload.
  destruct (initialize_raises self k evaluator e Hflag Hk Hcold Hload)
    as (e' & Hrun & Hsource).
  exists e'. eexists. unfold evaluate_text. rewrite Hflag, Hrun.
  split; [reflexivity|]. split; [reflexivity|]. split; [reflexivity|].
  exact Hsource.
Qed.

(** X2 on a service whose bias model cannot be loaded. *)
Lemma failed_load_escapes_evaluate_text_witness :
  ∃ e' self',
    evaluate_text
      (__init__ (scoring "toxicity" 0.2%Q) (scoring "pii" 0.0%Q) unloadable
         hallucination)
      "some text" None (Some ["toxicity"])
    = (Raise e', self') ∧
    _initialized self' = false.
Proof.
  destruct (failed_load_escapes_evaluate_text
              (__init__ (scoring "toxicity" 0.2%Q) (scoring "pii" 0.0%Q)
                 unloadable hallucination)
              "some text" None (Some ["toxicity"]) "bias" unloadable
              (Exception "model not found"))
    as (e' & self' & Hrun & Hflag & _); [by vm_compute..|].
  exists e', self'. split; [exact Hrun | exact Hflag].
Defined.

End ServiceInitialize.

(** ** [_calculate_safety_score] on partial outcome maps *)

Section FusionEdges.
Import EvaluationService Fixtures.
Local Open Scope Q_scope.

Lemma totals_snd_zero (m : gmap string Outcome) :
  (∀ k result, m !! k = Some result →
               weights !! k = None ∨ score result = None) →
  (totals m).2 == 0.
Proof.
  intros Hnone. destruct (totals_shares m) as [_ ->].
  assert (∀ k, (share k m).2 == 0) as H0.
  { intros k. unfold share. destruct (m !! k) as [result|] eqn:Hk; [|done].
    by rewrite (accumulate_skip _ _ _ (Hnone _ _ Hk)). }
  rewrite !H0. done.
Qed.

(** X3.  When no entry of the outcome map has both a weight and a score
    (the map is empty, or all its kinds are outside the weight table, or its
    results hold no score), the safety score is 0.0. *)
Theorem safety_score_without_weighted_entry (m : gmap string Outcome) :
  (∀ k result, m !! k = Some result →
               weights !! k = None ∨ score result = None) →
  _calculate_safety_score m == 0.
Proof.
  intros Hnone. apply safety_score_unweighted.
  rewrite (totals_snd_zero _ Hnone). done.
Qed.

(** X3 on the outcome map that the request [["sentiment"; "toxicity"]]
    produces. *)
Lemma safety_score_without_weighted_entry_witness :
  _calculate_safety_score {["sentiment" := scored "toxicity" 0.2]} == 0.
Proof.
  apply safety_score_without_weighted_entry.
  intros k result [<- _]%lookup_singleton_Some. by left.
Defined.

Lemma totals_insert_unweighted (k : string) (result : Outcome)
    (m : gmap string Outcome) :
  weights !! k = None →
  (totals (<[k := result]> m)).1 == (totals m).1 ∧
  (totals (<[k := result]> m)).2 == (totals m).2.
Proof.
  intros Hw.
  destruct (totals_shares (<[k := result]> m)) as [-> ->].
  destruct (totals_shares m) as [-> ->].
  assert (∀ k', is_Some (weights !! k') → k ≠ k') as Hne.
  { intros k' [w Hw'] <-. congruence. }
  rewrite !share_insert_ne by (apply Hne; by eexists). done.
Qed.

(** X5.  An entry under a kind outside the weight table does not change the
    safety score. *)
Theorem safety_score_ignores_unweighted_kind (k : string) (result : Outcome)
    (m : gmap string Outcome) :
  weights !! k = None →
  _calculate_safety_score (<[k := result]> m) == _calculate_safety_score m.
Proof.
  intros Hw. destruct (totals_insert_unweighted k result m Hw) as [E1 E2].
  destruct (Qlt_le_dec 0 (totals m).2) as [Hpos|Hzero].
  - assert (m ≠ ∅) as Hm.
    { intros ->. change (totals ∅) with (0.0, 0.0) in Hpos.
      cbn [snd] in Hpos. lra. }
    rewrite !safety_score_weighted; [|done|done|apply insert_non_empty|].
    + by rewrite E1, E2.
    + by rewrite E2.
  - rewrite !safety_score_unweighted; [done|done|]. by rewrite E2.
Qed.

(** X5 on an outcome map with an entry of an unknown kind. *)
Lemma safety_score_ignores_unweighted_kind_witness :
  _calculate_safety_score
    (<["sentiment" := scored "sentiment" 0.9]> (raw_scores 0.2 0.0 0.0 0.0))
  == _calculate_safety_score (raw_scores 0.2 0.0 0.0 0.0).
Proof.
  exact (safety_score_ignores_unweighted_kind "sentiment"
           (scored "sentiment" 0.9) (raw_scores 0.2 0.0 0.0 0.0) eq_refl).
Defined.

End FusionEdges.

(** ** Requests without a registered kind, and evaluators used lazily *)

Section DispatcherEdges.
Import EvaluationService Fixtures.

(** X7.  On a ready service, a request that names only kinds that are not
    registered is no error: the response has no entry and the safety score
    0.0, and the service is left as it is. *)
Theorem unregistered_request_is_empty (self : EvaluationService.t)
    (text : string) (context : option string) (requested : list string) :
  ready self = true →
  (∀ k, k ∈ requested → evaluators self !! k = None) →
  evaluate_text self text context (Some requested)
  = (Ret (mkResponse 0.0%Q ∅ text context), self).
Proof.
  intros Hready Hnone.
  rewrite (evaluate_text_ready _ _ _ (Some requested) Hready).
  assert (omap (awaited (evaluators self) text context) requested = [])
    as ->.
  { induction requested as [|k rest IH]; [done|].
    change (omap ?f (k :: rest))
      with (match f k with
            | Some r => r :: omap f rest
            | None => omap f rest
            end).
    unfold awaited at 1. rewrite (Hnone k) by apply list_elem_of_here.
    apply IH. intros k' Hk'. by apply Hnone, list_elem_of_further. }
  by destruct requested.
Qed.

(** X7 on two unknown kinds. *)
Lemma unregistered_request_is_empty_witness :
  evaluate_text (warm service) "some text" None
    (Some ["sentiment"; "grammar"])
  = (Ret (mkResponse 0.0%Q ∅ "some text" None), warm service).
Proof.
  apply unregistered_request_is_empty; [by vm_compute|].
  intros k Hk. set_unfold in Hk. destruct Hk as [->|[->|[]]]; by vm_compute.
Defined.

(** X8.  [evaluate] on an evaluator that is not initialized first loads the
    model.  When the load raises, [evaluate] raises the same exception
    without running its body, and the evaluator stays uninitialized with the
    attempt counted; when the load succeeds, the body runs and the evaluator
    is initialized after this one attempt.  On an initialized evaluator no
    load is made. *)
Theorem evaluate_initializes_lazily (self : BaseEvaluator.t) (text : string)
    (context : option string) :
  (BaseEvaluator._is_initialized self = true →
   BaseEvaluator.evaluate self text context
   = (BaseEvaluator._evaluate self text context, self)) ∧
  (BaseEvaluator._is_initialized self = false →
   match BaseEvaluator._load_model self (BaseEvaluator.load_attempts self)
   with
   | Raise e =>
       BaseEvaluator.evaluate self text context
       = (Raise e, BaseEvaluator.count_attempt self) ∧
       BaseEvaluator._is_initialized
         (BaseEvaluator.evaluate self text context).2 = false
   | Ret _ =>
       (BaseEvaluator.evaluate self text context).1
       = BaseEvaluator._evaluate self text context ∧
       BaseEvaluator._is_initialized
         (BaseEvaluator.evaluate self text context).2 = true ∧
       BaseEvaluator.load_attempts
         (BaseEvaluator.evaluate self text context).2
       = S (BaseEvaluator.load_attempts self)
   end).
Proof.
  split; intros Hflag.
  - by apply evaluate_initialized.
  - unfold BaseEvaluator.evaluate, BaseEvaluator.initialize.
    rewrite Hflag.
    destruct (BaseEvaluator._load_model self _); cbn; by rewrite ?Hflag.
Qed.

(** X8 on an evaluator whose model cannot be loaded and on one whose model
    can. *)
Lemma evaluate_initializes_lazily_witness :
  (BaseEvaluator.evaluate unloadable "some text" None).1
  = Raise (Exception "model not found") ∧
  (BaseEvaluator.evaluate (scoring "pii" 0.0%Q) "some text" None).1
  = Ret (scored "pii" 0.0%Q).
Proof.
  split.
  - destruct (evaluate_initializes_lazily unloadable "some text" None)
      as [_ H].
    destruct (H eq_refl) as [-> _]. reflexivity.
  - destruct (evaluate_initializes_lazily (scoring "pii" 0.0%Q)
                "some text" None) as [_ H].
    destruct (H eq_refl) as [-> _]. reflexivity.
Defined.

End DispatcherEdges.

(** ** The bound on load attempts *)

Section CallersBound.
Import BaseEvaluator Interleaving Fixtures.

Lemma step_callers_length (c : config) (i : nat) :
  length (callers (step c i)) = length (callers c).
Proof.
  unfold step.
  destruct (callers c !! i) as [[|a|a r]|]; [| |done|done].
  - destruct (_is_initialized (shared c)); cbn [callers];
      by rewrite length_insert.
  - destruct (_load_model (shared c) a); cbn [callers];
      by rewrite length_insert.
Qed.

Lemma run_callers_length (schedule : list nat) (c : config) :
  length (callers (run schedule c)) = length (callers c).
Proof.
  revert c. induction schedule as [|i rest IH]; intros c; [done|].
  cbn [run foldl]. fold (run rest (step c i)).
  by rewrite IH, step_callers_length.
Qed.

(** X10.  Whatever the schedule, [n] callers of [initialize] cause at most
    [n] calls of [_load_model] (each caller loads at most once), and none at
    all when the evaluator was initialized before. *)
Theorem load_attempts_bounded_by_callers (self : BaseEvaluator.t) (n : nat)
    (schedule : list nat) :
  load_attempts (shared (run schedule (start self n)))
  ≤ load_attempts self + n ∧
  (_is_initialized self = true →
   load_attempts (shared (run schedule (start self n))) = load_attempts self).
Proof.
  assert (attempts_accounted self (load_attempts self) (start self n))
    as Hstart.
  { split_and!; cbn [start shared callers]; [done| |].
    - rewrite loads_started_pending. lia.
    - intros j a r [[=] _]%lookup_replicate. }
  destruct (run_attempts_accounted _ _ schedule _ Hstart) as (_ & H1 & _).
  split.
  - rewrite H1. unfold loads_started.
    pose proof (length_filter (λ k, has_loaded k = true)
                  (callers (run schedule (start self n)))) as Hle.
    rewrite run_callers_length in Hle. cbn [start callers] in Hle.
    rewrite length_replicate in Hle. lia.
  - intros Hflag.
    assert (settled (load_attempts self) (start self n)) as Hsettled.
    { split_and!; cbn [start shared callers]; [done|done|].
      intros j k [-> _]%lookup_replicate. by left. }
    by destruct (run_settled _ schedule _ Hsettled) as (_ & ? & _).
Qed.

(** X10 on three callers of an evaluator that is already initialized. *)
Lemma load_attempts_bounded_by_callers_witness :
  load_attempts
    (shared (run [2; 0; 1; 0]
               (start (set_initialized (scoring "toxicity" 0.2%Q)) 3)))
  = 0.
Proof.
  exact (proj2 (load_attempts_bounded_by_callers
                  (set_initialized (scoring "toxicity" 0.2%Q)) 3
                  [2; 0; 1; 0]) eq_refl).
Defined.

End CallersBound.

(** ** The result of the heuristics *)

Section HeuristicResult.
Import HallucinationEvaluator Fixtures.
Local Open Scope Q_scope.

Lemma lower_char_idempotent (c : ascii) :
  lower_char (lower_char c) = lower_char c.
Proof. by destruct c as [[] [] [] [] [] [] [] []]. Qed.

Lemma lower_idempotent (s : string) : lower (lower s) = lower s.
Proof.
  induction s as [|c s IH]; [done|]. cbn [lower].
  by rewrite lower_char_idempotent, IH.
Qed.

(** X12.  The heuristics do not see the case of ASCII letters: two texts
    with the same lowered form get the same result, and so does a text and
    its lowered form. *)
Theorem evaluation_without_context_ignores_case (text text' : string) :
  lower text = lower text' →
  _evaluate_without_context text = _evaluate_without_context text' ∧
  _evaluate_without_context (lower text) = _evaluate_without_context text.
Proof.
  intros Hlow.
  unfold _evaluate_without_context, heuristics, vague_language,
    unsourced_statistic, extreme_claim.
  by rewrite lower_idempotent, Hlow.
Qed.

(** X12 on a text in upper case. *)
Lemma evaluation_without_context_ignores_case_witness :
  _evaluate_without_context "STUDIES SHOW IT IS NEVER SO"
  = _evaluate_without_context "studies show it is never so".
Proof.
  exact (proj1 (evaluation_without_context_ignores_case
                  "STUDIES SHOW IT IS NEVER SO" "studies show it is never so"
                  eq_refl)).
Defined.

(** X13.  The flags list the conditions that hold, in the order vague
    language, unsourced statistic, extreme claim; the score is 0.3, 0.2 and
    0.2 for the flags present, and the confidence is the score. *)
Theorem flags_name_the_conditions (text : string) :
  let flags :=
    (if vague_language text then ["vague_language"] else [])
    ++ (if unsourced_statistic text then ["unsourced_statistic"] else [])
    ++ (if extreme_claim text then ["extreme_claim"] else []) in
  detail "flags" (details (_evaluate_without_context text))
  = Some (VStrs flags) ∧
  ∃ s,
    score (_evaluate_without_context text) = Some s ∧
    detail "confidence" (details (_evaluate_without_context text))
    = Some (VFloat s) ∧
    s == (if bool_decide ("vague_language" ∈ flags) then 0.3 else 0)
         + (if bool_decide ("unsourced_statistic" ∈ flags) then 0.2 else 0)
         + (if bool_decide ("extreme_claim" ∈ flags) then 0.2 else 0).
Proof.
  unfold _evaluate_without_context, heuristics.
  destruct (vague_language text), (unsourced_statistic text),
    (extreme_claim text); cbn [details score];
    (split; [reflexivity|]); eexists;
    (split; [reflexivity|]); (split; [reflexivity|]);
    vm_compute; reflexivity.
Qed.

(** X14.  Once the evaluator is initialized, [evaluate] does not raise,
    whatever the model does: without a context the model is not consulted,
    with a context the result of the check is returned, and when the check
    raises the result has score 0.0, is not flagged, and carries the [str]
    of the exception as error. *)
Theorem hallucination_evaluate_never_raises
    (model : string → string → Raises Outcome) (text : string)
    (context : option string) :
  ∃ result,
    evaluate_body model text context = Ret result ∧
    (no_context context = true → result = _evaluate_without_context text) ∧
    (∀ c, context = Some c → no_context context = false →
       match model text c with
       | Ret checked => result = checked
       | Raise e =>
           result
           = mkOutcome (Some 0.0) (Some (str e)) "hallucination"
               [("is_hallucinated", VBool false); ("confidence", VFloat 0.0)]
       end).
Proof.
  unfold evaluate_body.
  destruct context as [[|c ctx]|]; cbn [no_context].
  - eexists. split; [done|]. split; [done|]. by intros c _ [=].
  - destruct (model text (String c ctx)) as [checked|e] eqn:Hm; eexists;
      (split; [done|]); (split; [by intros [=]|]);
      intros c' [= <-] _; by rewrite Hm.
  - eexists. split; [done|]. split; [done|]. by intros c [=].
Qed.

(** X14 on a model that raises and a request with a context. *)
Lemma hallucination_evaluate_never_raises_witness :
  evaluate_body (λ _ _, Raise (Exception "no model")) "some text"
    (Some "the context")
  = Ret (mkOutcome (Some 0.0) (Some "no model") "hallucination"
           [("is_hallucinated", VBool false); ("confidence", VFloat 0.0)]).
Proof.
  destruct (hallucination_evaluate_never_raises
              (λ _ _, Raise (Exception "no model")) "some text"
              (Some "the context")) as (result & -> & _ & Hfault).
  by rewrite (Hfault "the context" eq_refl eq_refl).
Defined.

End HeuristicResult.

(** ** Sentences *)

Section Sentences.
Import HallucinationContext.

Lemma re_split_nonempty (s : string) (in_run : bool) :
  re_split s in_run ≠ [].
Proof.
  revert in_run. induction s as [|c s IH]; intros in_run; [done|].
  cbn [re_split]. destruct (is_terminator c).
  - destruct in_run; [apply IH|done].
  - by destruct (re_split s false).
Qed.

Lemma re_split_plain (s : string) (in_run : bool) (piece : string) :
  piece ∈ re_split s in_run → plain piece.
Proof.
  revert in_run piece. induction s as [|c s IH]; intros in_run piece.
  - intros ->%list_elem_of_singleton. constructor.
  - cbn [re_split]. destruct (is_terminator c) eqn:Hc.
    + destruct in_run; [apply IH|].
      intros [->|Hin]%elem_of_cons; [constructor | by eapply IH].
    + pose proof (IH false) as IH'.
      destruct (re_split s false) as [|p ps] eqn:Hr;
        [by apply re_split_nonempty in Hr|].
      intros [->|Hin]%elem_of_cons.
      * constructor; [done|]. apply IH'. apply list_elem_of_here.
      * apply IH'. by apply list_elem_of_further.
Qed.

Lemma lstrip_plain (s : string) : plain s → plain (lstrip s).
Proof.
  induction s as [|c s IH]; [done|]. intros Hs. cbn [lstrip].
  destruct (is_space c); [|done]. apply IH. by inversion Hs.
Qed.

Lemma rstrip_plain (s : string) : plain s → plain (rstrip s).
Proof.
  induction s as [|c s IH]; [done|]. intros Hs. cbn [rstrip].
  inversion Hs as [|? ? Hc Hs']; subst. specialize (IH Hs').
  destruct (rstrip s) as [|c' r].
  - destruct (is_space c); constructor; [done|constructor].
  - by constructor.
Qed.

Lemma rstrip_idempotent (s : string) : rstrip (rstrip s) = rstrip s.
Proof.
  induction s as [|c s IH]; [done|]. cbn [rstrip].
  destruct (rstrip s) as [|c' r] eqn:Hr.
  - destruct (is_space c) eqn:Hc; [done|]. cbn [rstrip]. by rewrite Hc.
  - change (rstrip (String c (String c' r)))
      with (match rstrip (String c' r) with
            | EmptyString =>
                if is_space c then EmptyString else String c EmptyString
            | rest => String c rest
            end).
    by rewrite IH.
Qed.

Lemma rstrip_head (c : ascii) (s : string) :
  is_space c = false → ∃ r, rstrip (String c s) = String c r.
Proof.
  intros Hc. cbn [rstrip]. destruct (rstrip s); rewrite ?Hc; by eexists.
Qed.

Lemma lstrip_head (s : string) :
  lstrip s = EmptyString ∨
  ∃ c r, lstrip s = String c r ∧ is_space c = false.
Proof.
  induction s as [|c s IH]; [by left|]. cbn [lstrip].
  destruct (is_space c) eqn:Hc; [done|]. right. by exists c, s.
Qed.

Lemma strip_idempotent (s : string) : strip (strip s) = strip s.
Proof.
  unfold strip. destruct (lstrip_head s) as [->|(c & r & -> & Hc)]; [done|].
  destruct (rstrip_head c r Hc) as [r' Hr]. rewrite Hr.
  cbn [lstrip]. rewrite Hc, <- Hr. apply rstrip_idempotent.
Qed.

Lemma split_into_sentences_elem (text sentence : string) :
  sentence ∈ _split_into_sentences text ↔
  sentence ≠ EmptyString ∧
  ∃ piece, piece ∈ re_split text false ∧ sentence = strip piece.
Proof.
  unfold _split_into_sentences. rewrite list_elem_of_omap. split.
  - intros (piece & Hin & Hs). destruct (strip piece) eqn:Hp; [done|].
    injection Hs as <-. split; [done|]. exists piece. by rewrite Hp.
  - intros (Hne & piece & Hin & ->). exists piece. split; [done|].
    by destruct (strip piece).
Qed.

(** X15.  Every sentence that [_split_into_sentences] returns is non-empty,
    contains none of the characters [.], [!] and [?], and has no white space
    at its start or end (stripping it again changes nothing). *)
Theorem sentences_are_clean (text sentence : string) :
  sentence ∈ _split_into_sentences text →
  sentence ≠ EmptyString ∧
  Forall (λ c, is_terminator c = false) (String.list_ascii_of_string sentence) ∧
  strip sentence = sentence.
Proof.
  intros (Hne & piece & Hin & ->)%split_into_sentences_elem.
  split; [done|]. split.
  - unfold strip.
    by apply rstrip_plain, lstrip_plain, (re_split_plain text false).
  - apply strip_idempotent.
Qed.

(** X15 on a text of two sentences. *)
Lemma sentences_are_clean_witness :
  _split_into_sentences "Is it so?  It is... " = ["Is it so"; "It is"] ∧
  strip "It is" = "It is".
Proof.
  split; [reflexivity|].
  apply (sentences_are_clean "Is it so?  It is... " "It is").
  vm_compute. set_solver.
Defined.

Lemma re_split_plain_text (s : string) (in_run : bool) :
  plain s → s ≠ EmptyString ∨ in_run = false → re_split s in_run = [s].
Proof.
  intros Hs. revert in_run. induction s as [|c s IH]; intros in_run Hrun.
  - done.
  - inversion Hs as [|? ? Hc Hs']; subst. cbn [re_split]. rewrite Hc.
    rewrite (IH Hs' false) by auto. done.
Qed.

Lemma lstrip_spaces (s : string) :
  Forall (λ c, is_space c = true) (String.list_ascii_of_string s) →
  lstrip s = EmptyString.
Proof.
  induction s as [|c s IH]; [done|]. intros Hs.
  inversion Hs as [|? ? Hc Hs']; subst. cbn [lstrip]. rewrite Hc. by apply IH.
Qed.

Lemma re_split_blank (s : string) (in_run : bool) (piece : string) :
  blank s → piece ∈ re_split s in_run →
  Forall (λ c, is_space c = true) (String.list_ascii_of_string piece).
Proof.
  revert in_run piece. induction s as [|c s IH]; intros in_run piece Hs.
  - intros ->%list_elem_of_singleton. constructor.
  - inversion Hs as [|? ? Hc Hs']; subst. cbn [re_split].
    destruct (is_terminator c) eqn:Ht.
    + destruct in_run; [by apply IH|].
      intros [->|Hin]%elem_of_cons; [constructor | by eapply IH].
    + pose proof (IH false) as IH'. cbn in Hc.
      destruct (re_split s false) as [|p ps] eqn:Hr;
        [by apply re_split_nonempty in Hr|].
      intros [->|Hin]%elem_of_cons.
      * constructor; [done|]. apply IH'; [done|]. apply list_elem_of_here.
      * apply IH'; [done|]. by apply list_elem_of_further.
Qed.

Lemma blank_text_has_no_sentences (text : string) :
  blank text → _split_into_sentences text = [].
Proof.
  intros Hblank. apply elem_of_nil_inv. intros sentence.
  intros (Hne & piece & Hin & ->)%split_into_sentences_elem.
  apply Hne. unfold strip.
  by rewrite (lstrip_spaces _ (re_split_blank text false piece Hblank Hin)).
Qed.

(** X16.  An ASCII text without [.], [!] and [?] is a single sentence, its
    stripped form, unless it is blank; a text made only of these characters
    and ASCII white space, the empty text among them, has no sentence. *)
Theorem sentences_of_plain_and_blank_text (text : string) :
  (isascii text = true →
   Forall (λ c, is_terminator c = false) (String.list_ascii_of_string text) →
   _split_into_sentences text
   = match strip text with
     | EmptyString => []
     | sentence => [sentence]
     end) ∧
  (Forall (λ c, is_terminator c || is_space c = true)
     (String.list_ascii_of_string text) →
   _split_into_sentences text = []).
Proof.
  split.
  - intros _ Hplain. unfold _split_into_sentences.
    rewrite (re_split_plain_text text false Hplain) by auto.
    cbn. by destruct (strip text).
  - apply blank_text_has_no_sentences.
Qed.

(** X16 on a text without terminators and on a text of dots and spaces. *)
Lemma sentences_of_plain_and_blank_text_witness :
  _split_into_sentences "  no full stop here " = ["no full stop here"] ∧
  _split_into_sentences " ... ?! " = [].
Proof.
  split.
  - apply (proj1 (sentences_of_plain_and_blank_text "  no full stop here "));
      [reflexivity|].
    repeat constructor.
  - apply (proj2 (sentences_of_plain_and_blank_text " ... ?! ")).
    repeat constructor.
Defined.

End Sentences.

(** ** The check against a context *)

Section ContextCheck.
Import HallucinationContext.
Local Open Scope Q_scope.

Lemma above_threshold_spec (x : Q) :
  above_threshold x = true ↔ 0.7 < x.
Proof.
  unfold above_threshold, contradiction_threshold.
  destruct (Qlt_le_dec 0.7 x); split; try done. intros ?. exfalso. lra.
Qed.

(** X17.  A text made only of terminators and white space is not checked:
    the result has score 0.0 and is not flagged, whatever the model would
    do.  On an ASCII text with sentences an exception of the model is raised
    on, and otherwise the score is what [np.mean] makes of the contradiction
    scores of the rows (0.0 for a row that is not a triple; 0.0 without
    rows), the text is flagged exactly when the score exceeds 0.7, and the
    problematic sentences are the sentences paired, position by position,
    with a contradiction score above 0.7. *)
Theorem context_check
    (predict : list (string * string) → Raises (list (list Q)))
    (np_mean : list Q → Q) (text context : string) :
  (blank text →
   _evaluate_with_context predict np_mean text context
   = Ret (mkResult 0.0 false 0.0 None)) ∧
  (isascii text = true →
   _split_into_sentences text ≠ [] →
   match predict ((λ s, (s, context)) <$> _split_into_sentences text) with
   | Raise e =>
       _evaluate_with_context predict np_mean text context = Raise e
   | Ret rows =>
       ∃ r problematic,
         _evaluate_with_context predict np_mean text context = Ret r ∧
         score r = match contradiction <$> rows with
                   | [] => 0.0
                   | scores => np_mean scores
                   end ∧
         confidence r = score r ∧
         problematic_sentences r = Some problematic ∧
         (is_hallucinated r = true ↔ 0.7 < score r) ∧
         (∀ s c, (s, c) ∈ problematic ↔
                 0.7 < c ∧
                 ∃ i, _split_into_sentences text !! i = Some s ∧
                      (contradiction <$> rows) !! i = Some c)
   end).
Proof.
  split.
  - intros Hblank. unfold _evaluate_with_context.
    by rewrite (blank_text_has_no_sentences text Hblank).
  - intros _ Hne. unfold _evaluate_with_context.
    destruct (_split_into_sentences text) as [|s0 ss] eqn:Hs; [done|].
    destruct (predict _) as [rows|e]; [|done].
    eexists. eexists. split; [reflexivity|]. cbn [score confidence
      problematic_sentences is_hallucinated].
    split; [by destruct (contradiction <$> rows)|].
    split; [done|]. split; [done|]. split.
    + apply above_threshold_spec.
    + intros s c. rewrite list_elem_of_filter. cbn [snd].
      rewrite above_threshold_spec, list_elem_of_lookup.
      split.
      * intros [Habove [i Hi]]. split; [done|]. exists i.
        apply lookup_zip_with_Some in Hi as (s' & c' & [= <- <-] & Hsi & Hci).
        done.
      * intros [Habove (i & Hsi & Hci)]. split; [done|]. exists i.
        apply lookup_zip_with_Some. by exists s, c.
Qed.

(** X17 on a text of two sentences and a model that finds the second one
    contradicted, and on a text without sentences. *)
Lemma context_check_witness :
  _evaluate_with_context
    (λ _, Ret [[0.6; 0.3; 0.1]; [0.9; 0.05; 0.05]]) (λ _, 0.75)
    "It rained. It never rains." "It rained."
  = Ret (mkResult 0.75 true 0.75 (Some [("It never rains", 0.9)])) ∧
  _evaluate_with_context (λ _, Raise (Exception "no model")) (λ _, 0.75)
    " ... " "ctx"
  = Ret (mkResult 0.0 false 0.0 None).
Proof.
  split; [reflexivity|].
  apply (proj1 (context_check (λ _, Raise (Exception "no model"))
                  (λ _, 0.75) " ... " "ctx")).
  repeat constructor.
Defined.

End ContextCheck.

(** ** PII detection *)

Section PII.
Import PIIEvaluator.
Local Open Scope Q_scope.

(** X18.  [_process_ner_results] keeps an entity exactly when its group is
    one of the PII types, under that group and in the order of the input;
    a type without such an entity gets no key. *)
Theorem process_ner_results_groups (ner_results : list Entity)
    (pii_type : string) :
  _process_ner_results ner_results !! pii_type
  = if bool_decide (pii_type ∈ pii_types) then
      match filter (λ entity, entity_group entity = pii_type) ner_results with
      | [] => None
      | kept => Some (of_entity <$> kept)
      end
    else None.
Proof.
  unfold _process_ner_results.
  induction ner_results as [|entity rest IH] using rev_ind.
  - cbn. rewrite lookup_empty. by case_bool_decide.
  - rewrite foldl_app, filter_app. cbn [foldl].
    rewrite filter_cons, filter_nil.
    destruct (decide (entity_group entity = pii_type)) as [Heq|Hne].
    + rewrite Heq.
      destruct (bool_decide (pii_type ∈ pii_types)); [|done].
      rewrite lookup_insert_eq, IH.
      destruct (filter _ rest) as [|e kept]; [done|].
      cbn [default app]. unfold id.
      by rewrite !fmap_cons, fmap_app.
    + rewrite app_nil_r, <- IH.
      destruct (bool_decide (entity_group entity ∈ pii_types)); [|done].
      by rewrite lookup_insert_ne.
Qed.

(** [_process_ner_results] has keys among the PII types only. *)
Lemma process_ner_results_keys (ner_results : list Entity)
    (pii_type : string) :
  is_Some (_process_ner_results ner_results !! pii_type) →
  pii_type ∈ pii_types.
Proof.
  unfold _process_ner_results.
  induction ner_results as [|entity rest IH] using rev_ind.
  - cbn. rewrite lookup_empty. by intros [? ?].
  - rewrite foldl_app. cbn [foldl].
    destruct (bool_decide (entity_group entity ∈ pii_types)) eqn:Hty;
      [|exact IH].
    destruct (decide (entity_group entity = pii_type)) as [<-|Hne].
    + intros _. by apply bool_decide_eq_true in Hty.
    + by rewrite lookup_insert_ne.
Qed.

(** The result of [_check_with_regex], key by key. *)
Lemma check_with_regex_lookup
    (finditer : string → string → list (string * nat * nat))
    (text pii_type : string) :
  _check_with_regex finditer text !! pii_type
  = match pattern_of pii_type regex_patterns with
    | Some pattern =>
        match of_match <$> finditer pattern text with
        | [] => None
        | matches => Some matches
        end
    | None => None
    end.
Proof.
  unfold _check_with_regex.
  assert (∀ (patterns : list (string * string))
            (results : gmap string (list Detected)),
    NoDup patterns.*1 →
    foldl (check_pattern finditer text) results patterns !! pii_type
    = match pattern_of pii_type patterns with
      | Some pattern =>
          match of_match <$> finditer pattern text with
          | [] => results !! pii_type
          | matches => Some matches
          end
      | None => results !! pii_type
      end) as Hfold.
  { induction patterns as [|[k pattern] rest IH]; intros results Hnd; [done|].
    rewrite fmap_cons in Hnd. apply NoDup_cons in Hnd as [Hk Hrest].
    cbn [foldl pattern_of]. rewrite (IH _ Hrest).
    destruct (decide (k = pii_type)) as [->|Hne].
    - assert (pattern_of pii_type rest = None) as ->.
      { clear -Hk. induction rest as [|[k' p'] rest IH]; [done|].
        cbn [pattern_of]. rewrite fmap_cons, not_elem_of_cons in Hk.
        destruct Hk as [Hne Hk]. rewrite decide_False by done. by apply IH. }
      unfold check_pattern.
      destruct (of_match <$> finditer pattern text); [done|].
      by rewrite lookup_insert_eq.
    - assert (check_pattern finditer text results (k, pattern) !! pii_type
              = results !! pii_type) as ->; [|done].
      unfold check_pattern.
      destruct (of_match <$> finditer pattern text); [done|].
      by rewrite lookup_insert_ne. }
  rewrite Hfold.
  - rewrite lookup_empty. by destruct (pattern_of pii_type regex_patterns).
  - apply (bool_decide_unpack (NoDup _)). by vm_compute.
Qed.

Lemma pattern_types_are_pii_types (pii_type : string) :
  is_Some (pattern_of pii_type regex_patterns) → pii_type ∈ pii_types.
Proof.
  unfold regex_patterns, pii_types. cbn [pattern_of].
  rewrite !elem_of_cons.
  repeat (case_decide; [subst; tauto|]). by intros [? ?].
Qed.

(** X19.  When the NER pipeline raises, the result has score 0.0, nothing
    detected and the error.  Otherwise a type is detected when its pattern
    matches or a kept entity has it; where the pattern of a type matches, its
    matches replace the entities the model found for that type.  The score
    is 0.2 for every detected type, 1.0 from five types on, however many
    items a type has; it is positive exactly when something was detected. *)
Theorem pii_score_counts_types (ner_pipeline : string → Raises (list Entity))
    (finditer : string → string → list (string * nat * nat)) (text : string) :
  match ner_pipeline text with
  | Raise e =>
      evaluate_body ner_pipeline finditer text
      = mkResult 0.0 ∅ false (Some (str e))
  | Ret ner_results =>
      let r := evaluate_body ner_pipeline finditer text in
      error r = None ∧
      (∀ pii_type,
         detected_pii r !! pii_type
         = match _check_with_regex finditer text !! pii_type with
           | Some matches => Some matches
           | None => _process_ner_results ner_results !! pii_type
           end) ∧
      (∀ pii_type, is_Some (detected_pii r !! pii_type) →
                   pii_type ∈ pii_types) ∧
      ((size (detected_pii r) < 5)%nat →
       score r == inject_Z (Z.of_nat (size (detected_pii r))) * 0.2) ∧
      ((5 ≤ size (detected_pii r))%nat → score r == 1) ∧
      (has_pii r = true ↔ 0 < score r) ∧
      (has_pii r = true ↔ detected_pii r ≠ ∅)
  end.
Proof.
  unfold evaluate_body. destruct (ner_pipeline text) as [ner_results|e];
    [|done].
  cbn [error detected_pii score has_pii].
  set (detected := _check_with_regex finditer text
                   ∪ _process_ner_results ner_results).
  assert (∀ pii_type,
    detected !! pii_type
    = match _check_with_regex finditer text !! pii_type with
      | Some matches => Some matches
      | None => _process_ner_results ner_results !! pii_type
      end) as Hlookup.
  { intros pii_type. unfold detected. rewrite lookup_union.
    destruct (_check_with_regex finditer text !! pii_type),
      (_process_ner_results ner_results !! pii_type); done. }
  split; [done|]. split; [exact Hlookup|]. split.
  { intros pii_type. rewrite Hlookup, check_with_regex_lookup.
    destruct (pattern_of pii_type regex_patterns) as [pattern|] eqn:Hpat.
    - intros _. apply pattern_types_are_pii_types. by rewrite Hpat.
    - apply process_ner_results_keys. }
  assert ((0 < size detected)%nat ↔ detected ≠ ∅) as Hempty.
  { rewrite <- map_size_non_empty_iff. lia. }
  revert Hempty. generalize (size detected). intros n Hempty.
  assert (inject_Z (Z.of_nat n) * 0.2 < 1 ↔ (n < 5)%nat) as Hlt.
  { rewrite Nat2Z.inj_lt, Zlt_Qlt.
    change (inject_Z (Z.of_nat 5)) with 5. split; intros ?; lra. }
  assert (0 < inject_Z (Z.of_nat n) ↔ (0 < n)%nat) as Hpos.
  { by rewrite Nat2Z.inj_lt, Zlt_Qlt. }
  rewrite bool_decide_eq_true.
  split; [|split; [|split; [|exact Hempty]]];
    destruct (Q.min_spec 1.0 (inject_Z (Z.of_nat n) * 0.2))
      as [[Hcmp ->]|[Hcmp ->]].
  - intros Hn. apply Hlt in Hn. exfalso. lra.
  - done.
  - done.
  - intros Hn. assert (¬ (n < 5)%nat) as Hn' by lia.
    rewrite <- Hlt in Hn'. lra.
  - rewrite <- Hpos. split; intros ?; [done|lra].
  - rewrite <- Hpos. split; intros ?; lra.
Qed.

(** X19 on a text where the model finds a person and an e-mail address and
    the e-mail pattern matches too. *)
Lemma pii_score_counts_types_witness :
  let ner_pipeline := λ _ : string,
    Ret [mkEntity "PERSON" "Ada" 0.99 0 3;
         mkEntity "EMAIL" "ada" 0.5 10 13;
         mkEntity "MISC" "Rocq" 0.9 20 24] in
  let finditer := λ pattern _ : string,
    if bool_decide (pattern_of "EMAIL" regex_patterns = Some pattern)
    then [("ada@example.org", 10%nat, 25%nat)] else [] in
  let r := evaluate_body ner_pipeline finditer "Ada, at ada@example.org" in
  detected_pii r !! "EMAIL" = Some [mkDetected "ada@example.org" None 10 25] ∧
  detected_pii r !! "MISC" = None ∧
  score r == 0.4.
Proof.
  intros ner_pipeline finditer r.
  destruct (pii_score_counts_types ner_pipeline finditer
              "Ada, at ada@example.org")
    as (_ & Hlookup & _ & Hscore & _).
  split; [by rewrite Hlookup|]. split; [by rewrite Hlookup|].
  etrans; [apply Hscore; vm_compute; lia|]. by vm_compute.
Defined.

End PII.

(** ** Toxicity and bias *)

Section Toxicity.
Import ToxicityEvaluator.
Local Open Scope Q_scope.










End Toxicity.

Section Bias.
Import BiasEvaluator.
Local Open Scope Q_scope.

Lemma list_to_map_constant (c : Q) (ls : list string) (k : string) :
  (list_to_map ((λ l, (l, c)) <$> ls) : gmap string Q) !! k
  = if bool_decide (k ∈ ls) then Some c else None.
Proof.
  induction ls as [|l ls IH].
  - rewrite fmap_nil, list_to_map_nil, lookup_empty.
    by rewrite bool_decide_false by apply not_elem_of_nil.
  - rewrite fmap_cons, list_to_map_cons.
    destruct (decide (l = k)) as [->|Hne].
    + rewrite lookup_insert_eq.
      by rewrite bool_decide_true by apply list_elem_of_here.
    + rewrite lookup_insert_ne, IH by done.
      assert (bool_decide (k ∈ l :: ls) = bool_decide (k ∈ ls)) as ->;
        [|done].
      apply bool_decide_ext. rewrite elem_of_cons.
      split; [intros [?|?]; [by subst|done] | by right].
Qed.

(** X21.  [evaluate] of the bias evaluator never gets past
    [with torch.no_grad():].  Whatever the tokenizer and the model do, the
    result is the one of the [except] branch: score 0.0, every category 0.0,
    no top biases, no bias, and an error, which is that of the tokenizer
    when it raised and the undefined name otherwise.  In the fusion this
    score is normalized to 1, the value of a text without bias. *)
Theorem bias_evaluation_always_fails (tokenizer : string → Raises unit)
    (text : string) :
  let r := evaluate_body tokenizer text in
  score r = 0.0 ∧ has_bias r = false ∧ top_biases r = [] ∧
  (∀ category,
     bias_scores r !! category
     = if bool_decide (category ∈ bias_categories) then Some 0.0 else None) ∧
  error r
  = Some (match tokenizer text with
          | Raise e => str e
          | Ret _ => "name 'torch' is not defined"
          end) ∧
  EvaluationService.normalized "bias" (score r) == 1.
Proof.
  unfold evaluate_body.
  destruct (tokenizer text) as [[]|e]; cbn [score has_bias top_biases
    bias_scores error]; split_and!; try done;
    try (intros category; apply list_to_map_constant); by vm_compute.
Qed.

End Bias.

(** ** The endpoints *)

Section EndpointReplies.
Import EvaluationService Fixtures.

(** X22.  On a ready service the handler of the route raises nothing,
    whatever the evaluators do and whatever kinds are asked for: it hands
    the result of the service to the framework.  On a service that is not
    initialized, a load that raises makes the handler raise the
    [HTTPException] with status 500 and the [str] of a load exception in its
    detail, and the service stays uninitialized. *)
Theorem evaluate_handler_outcomes (self : EvaluationService.t) (text : string)
    (context : option string) (requested : option (list string)) :
  (ready self = true →
   ∃ result,
     evaluate_text self text context requested = (Ret result, self) ∧
     Endpoints.evaluate_text self text context requested
     = (Endpoints.Returns result, self)) ∧
  (∀ k evaluator e,
     _initialized self = false →
     evaluators self !! k = Some evaluator →
     BaseEvaluator._is_initialized evaluator = false →
     BaseEvaluator._load_model evaluator
       (BaseEvaluator.load_attempts evaluator) = Raise e →
     ∃ e' self',
       Endpoints.evaluate_text self text context requested
       = (Endpoints.HTTPException 500
            (String.append "An error occurred during evaluation: " (str e')),
          self') ∧
       _initialized self' = false).
Proof.
  split.
  - intros Hready.
    pose proof (evaluate_text_ready _ text context requested Hready) as Hrun.
    cbn zeta in Hrun. eexists. split; [exact Hrun|].
    unfold Endpoints.evaluate_text. by rewrite Hrun.
  - intros k evaluator e Hflag Hk Hcold Hload.
    destruct (initialize_raises self k evaluator e Hflag Hk Hcold Hload)
      as (e' & Hrun & _).
    exists e'. eexists.
    unfold Endpoints.evaluate_text, evaluate_text. rewrite Hflag, Hrun.
    split; reflexivity.
Qed.

(** X22 on a ready service whose bias evaluator raises at every request. *)
Lemma evaluate_handler_outcomes_witness :
  ∃ result,
    Endpoints.evaluate_text (warm (service_bias_faults "out of memory"))
      "some text" None (Some ["bias"; "sentiment"])
    = (Endpoints.Returns result, warm (service_bias_faults "out of memory")).
Proof.
  destruct (proj1 (evaluate_handler_outcomes
                     (warm (service_bias_faults "out of memory"))
                     "some text" None (Some ["bias"; "sentiment"])))
    as (result & _ & Hreturns).
  - vm_compute. reflexivity.
  - by exists result.
Defined.

Lemma model_state_registered (self : EvaluationService.t) (kind : string)
    (evaluator : BaseEvaluator.t) :
  evaluators self !! kind = Some evaluator →
  Endpoints.model_state self kind
  = Ret (if BaseEvaluator._is_initialized evaluator
         then "loaded" else "not loaded").
Proof. intros H. unfold Endpoints.model_state. by rewrite H. Qed.

(** X23.  With the four kinds registered, [health_check] is healthy whether
    or not any model has been loaded, and reports for each kind ["loaded"]
    exactly when its evaluator is initialized: all ["not loaded"] for a new
    service, all ["loaded"] for a ready one. *)
Theorem health_check_reports_flags (self : EvaluationService.t)
    (toxicity pii bias hallucination : BaseEvaluator.t) :
  evaluators self !! "toxicity" = Some toxicity →
  evaluators self !! "pii" = Some pii →
  evaluators self !! "bias" = Some bias →
  evaluators self !! "hallucination" = Some hallucination →
  Endpoints.status (Endpoints.health_check self) = "healthy" ∧
  (∀ k evaluator,
     k ∈ ["toxicity"; "pii"; "bias"; "hallucination"] →
     evaluators self !! k = Some evaluator →
     Endpoints.model_status (Endpoints.health_check self) !! k
     = Some (if BaseEvaluator._is_initialized evaluator
             then "loaded" else "not loaded")) ∧
  (ready self = true →
   ∀ k, k ∈ ["toxicity"; "pii"; "bias"; "hallucination"] →
        Endpoints.model_status (Endpoints.health_check self) !! k
        = Some "loaded").
Proof.
  intros Ht Hp Hb Hh. unfold Endpoints.health_check.
  rewrite (model_state_registered _ _ _ Ht), (model_state_registered _ _ _ Hp),
    (model_state_registered _ _ _ Hb), (model_state_registered _ _ _ Hh).
  cbn [Endpoints.status Endpoints.model_status].
  assert (∀ k evaluator,
    k ∈ ["toxicity"; "pii"; "bias"; "hallucination"] →
    evaluators self !! k = Some evaluator →
    (<["toxicity" := if BaseEvaluator._is_initialized toxicity
                     then "loaded" else "not loaded"]>
       (<["pii" := if BaseEvaluator._is_initialized pii
                   then "loaded" else "not loaded"]>
          (<["bias" := if BaseEvaluator._is_initialized bias
                       then "loaded" else "not loaded"]>
             (<["hallucination" :=
                  if BaseEvaluator._is_initialized hallucination
                  then "loaded" else "not loaded"]> ∅))) : gmap string string)
      !! k
    = Some (if BaseEvaluator._is_initialized evaluator
            then "loaded" else "not loaded")) as Hstatus.
  { intros k evaluator Hk Hev. rewrite !elem_of_cons, elem_of_nil in Hk.
    destruct Hk as [->|[->|[->|[->|[]]]]]; simplify_eq;
      by rewrite ?lookup_insert_eq, ?lookup_insert_ne by done. }
  split; [done|]. split; [exact Hstatus|].
  intros [_ Hinit]%ready_spec k Hk.
  pose proof Hk as Hk'. rewrite !elem_of_cons, elem_of_nil in Hk'.
  destruct Hk' as [->|[->|[->|[->|[]]]]];
    erewrite Hstatus by done; by erewrite Hinit.
Qed.

(** X23 on the service as constructed. *)
Lemma health_check_reports_flags_witness :
  Endpoints.status (Endpoints.health_check service) = "healthy" ∧
  Endpoints.model_status (Endpoints.health_check service) !! "bias"
  = Some "not loaded".
Proof.
  destruct (health_check_reports_flags service
              (scoring "toxicity" 0.2%Q) (scoring "pii" 0.0%Q)
              (scoring "bias" 0.0%Q) hallucination
              eq_refl eq_refl eq_refl eq_refl) as (Hstatus & Hflags & _).
  split; [exact Hstatus|].
  apply (Hflags "bias" (scoring "bias" 0.0%Q)); [|reflexivity].
  rewrite !elem_of_cons. tauto.
Defined.

End EndpointReplies.
